(** * Ralph: package query, install pipeline, command line parser,
      promise delegation and the git driver

    A shallow embedding of the parts of the Ralph sources whose behaviour
    the specification states properties of:

    - [client/Functions.cpp]: [queryPackage], [State::installPackage],
      [State::listSources];
    - [common/CommandLineParser.cpp]: [Parser::process], [Parser::parse],
      [Parser::handle], [Command::checkPositionals];
    - [clientlib/future/Promise.cpp]: the [BasePromise::report...] family;
    - [clientlib/git/GitRepo.cpp]: [GitRepo::fetch], [GitRepo::checkout],
      [GitRepo::pull], [GitRepo::credentialsCallback].

    Exceptions are values of [exn]; a function that can throw returns a sum
    [exn + A].  Code that mutates shared promise data is modelled over an
    explicit store. *)

From Stdlib Require Import ZArith NArith String Ascii List Bool Lia.
From stdpp Require Import base option list strings gmap pretty.
Import ListNotations.

Set Warnings "-register-all".

Local Open Scope string_scope.
Local Open Scope list_scope.
Local Open Scope Z_scope.

(** ** Exceptions *)

(** The subclasses of [CommandLineException] declared with [DEC_EXCEPTION]. *)
Inductive CommandLineKind :=
| ToManyPositionals
| UnknownOption
| UnexpectedArgument
| MissingRequiredArgument
| MalformedOption
| MissingPositionalArgument
| InvalidOptionValue
| Build.

(** The exception classes of the program: [Exception] itself, the
    [CommandLineException] family (with its command chain) and
    [GitException] (with the libgit2 error code). *)
Inductive exn :=
| Exception (message : string)
| CommandLineException (kind : CommandLineKind) (message : string)
                       (commandChain : list string)
| GitException (message : string) (error : Z).

Definition what (e : exn) : string :=
  match e with
  | Exception m => m
  | CommandLineException _ m _ => m
  | GitException m _ => m
  end.

(** A computation that returns an [A] or throws. *)
Definition result (A : Type) : Type := exn + A.

Definition ok {A} (a : A) : result A := inr a.
Definition throw {A} (e : exn) : result A := inl e.

Definition bind {A B} (m : result A) (k : A -> result B) : result B :=
  match m with
  | inl e => inl e
  | inr a => k a
  end.

Declare Scope result_scope.
Delimit Scope result_scope with result.
Notation "'do' x <- m ; k" := (bind m (fun x => k))
  (at level 10, x name, m at level 100, k at level 200) : result_scope.

(** ** QString helpers *)

Module QString.

(** [QString::indexOf(QChar)]: the first position of [c], [-1] when
    absent. *)
Fixpoint indexOf (s : string) (c : ascii) : Z :=
  match s with
  | EmptyString => -1
  | String a s' =>
      if Ascii.eqb a c then 0
      else let r := indexOf s' c in if r <? 0 then -1 else r + 1
  end.

Fixpoint drop (n : nat) (s : string) : string :=
  match n, s with
  | O, _ => s
  | S _, EmptyString => EmptyString
  | S n', String _ s' => drop n' s'
  end.

Fixpoint take (n : nat) (s : string) : string :=
  match n, s with
  | O, _ => EmptyString
  | S _, EmptyString => EmptyString
  | S n', String a s' => String a (take n' s')
  end.

(** [QString::mid(position, n)] for [0 <= position]: [n] characters from
    [position]; everything from [position] when [n] is negative (the
    default [-1]) or exceeds what is left. *)
Definition mid (s : string) (position n : Z) : string :=
  let rest := drop (Z.to_nat position) s in
  if n <? 0 then rest else take (Z.to_nat n) rest.

(** [QString::split(sep)] keeping empty parts. *)
Fixpoint split (sep : ascii) (s : string) : list string :=
  match s with
  | EmptyString => [EmptyString]
  | String a s' =>
      if Ascii.eqb a sep then EmptyString :: split sep s'
      else match split sep s' with
           | [] => [String a EmptyString]
           | p :: ps => String a p :: ps
           end
  end.

Fixpoint startsWith (s p : string) : bool :=
  match p, s with
  | EmptyString, _ => true
  | String _ _, EmptyString => false
  | String b p', String a s' => Ascii.eqb a b && startsWith s' p'
  end.

Definition size (s : string) : Z := Z.of_nat (String.length s).

End QString.

(** ** Command line data model (common/CommandLineParser.h) *)

(** How a call ends: it returns, it throws, or it ends the process through
    [std::exit]. *)
Inductive outcome (A : Type) :=
| Returns (a : A)
| Throws (e : exn)
| Exits (code : Z).
Arguments Returns {A} a.
Arguments Throws {A} e.
Arguments Exits {A} code.

(** Modelled from the spec: the classes [Option], [PositionalArgument],
    [Command] and [Result] are declared in a header that is not among the
    sources; the fields are the accessors the parser calls.  A null
    [QString] default is [None].  A callback registered with [then] is kept
    as an identifier and run through a table of handlers. *)
Record Option := mkOption {
  names : list string;
  hasArgument : bool;
  isArgumentRequired : bool;
  defaultValue : option string;
  allowedValues : list string;
  isEarlyExit : bool;
  opt_callback : option nat
}.

Record PositionalArgument := mkPositional {
  arg_name : string;
  isMulti : bool;
  isOptional : bool
}.

Inductive Command :=
| mkCommand (name : string)
            (options : list Option)
            (arguments : list PositionalArgument)
            (subcommands : list (string * Command))
            (commandAliases : list (string * list string))
            (callback : option nat).

Definition cmd_name (c : Command) : string :=
  match c with mkCommand n _ _ _ _ _ => n end.
Definition cmd_options (c : Command) : list Option :=
  match c with mkCommand _ o _ _ _ _ => o end.
Definition cmd_arguments (c : Command) : list PositionalArgument :=
  match c with mkCommand _ _ a _ _ _ => a end.
Definition cmd_subcommands (c : Command) : list (string * Command) :=
  match c with mkCommand _ _ _ s _ _ => s end.
Definition cmd_commandAliases (c : Command) : list (string * list string) :=
  match c with mkCommand _ _ _ _ a _ => a end.
Definition cmd_callback (c : Command) : option nat :=
  match c with mkCommand _ _ _ _ _ cb => cb end.

(** A default-constructed [Command], [Option] and [PositionalArgument]: what
    [QMap::value] and [QHash::value] return for a missing key. *)
Definition default_Command : Command := mkCommand "" [] [] [] [] None.
Definition default_Option : Option := mkOption [] false false None [] false None.

(** Key lookup in a [QMap] kept as an association list. *)
Fixpoint assoc {V : Type} (key : string) (m : list (string * V)) : option V :=
  match m with
  | [] => None
  | (k, v) :: m' => if String.eqb k key then Some v else assoc key m'
  end.

Record Result := mkResult {
  res_options : gmap string string;
  res_arguments : gmap string (list string);
  res_commandChain : list string;
  res_possibleOptions : gmap string Option;
  res_possiblePositionals : list PositionalArgument
}.

(** [Result::value(key)]: [QHash::value], a null string when absent. *)
Definition Result_value (r : Result) (key : string) : string :=
  default "" (res_options r !! key).

(** [Result::values(key)]: the values given for [key]; the hash keeps one. *)
Definition Result_values (r : Result) (key : string) : list string :=
  match res_options r !! key with
  | Some v => [v]
  | None => []
  end.

Definition Result_isSet (r : Result) (key : string) : bool :=
  bool_decide (is_Some (res_options r !! key)).

Definition Result_hasArgument (r : Result) (key : string) : bool :=
  bool_decide (is_Some (res_arguments r !! key)).

(** [Result::argumentMulti(key)]. *)
Definition Result_argumentMulti (r : Result) (key : string) : list string :=
  default [] (res_arguments r !! key).

(** The table of callbacks: an identifier and the parsed result give the
    way the call ends. *)
Definition Handlers : Type := nat → Result → outcome unit.

Definition call (handlers : Handlers) (cb : option nat) (r : Result)
  : outcome unit :=
  match cb with
  | Some id => handlers id r
  | None => Returns tt
  end.

(** ** The parser (common/CommandLineParser.cpp) *)

Definition cl_throw {A} (kind : CommandLineKind) (message : string) : result A :=
  throw (CommandLineException kind message []).

(** [Command::checkPositionals]. *)
Definition checkPositionals (arguments : list PositionalArgument) : result unit :=
  if 1 <? Z.of_nat (length arguments) then
    let exceptLast := removelast arguments in
    let last_ := List.last arguments (mkPositional "" false false) in
    (* only the last may be multi *)
    if existsb isMulti exceptLast then
      cl_throw Build "Only the last positional argument may be multi"
    (* if the last is multi, no arguments before it may be optional *)
    else if isMulti last_ && existsb isOptional exceptLast then
      cl_throw Build
        "May now have optional positional argument before multi positional argument"
    (* no more required allowed after the first optional *)
    else if
      (fix scan (haveHadOptional : bool) (l : list PositionalArgument) : bool :=
         match l with
         | [] => false
         | arg :: l' =>
             if haveHadOptional && negb (isOptional arg) then true
             else scan (haveHadOptional || isOptional arg) l'
         end) false arguments
    then cl_throw Build
           "May not have required positional arguments after optional ones"
    else ok tt
  else ok tt.

(** The locals of [Parser::parse]: the anonymous [result] struct, the
    current command, the table of known options, the positionals and the
    flag. *)
Record ParseState := mkParseState {
  ps_options : gmap string string;            (* result.options *)
  ps_arguments : gmap string (list string);   (* result.arguments *)
  ps_commandChain : list string;              (* result.commandChain *)
  currentCommand : Command;
  known_options : gmap string Option;         (* options *)
  positionals : list PositionalArgument;
  haveStartedPositionals : bool
}.

(** [names().first()]. *)
Definition first_name (o : Option) : string := hd "" (names o).

(** The two loops of [nextCommand] over the options and their names. *)
Definition register_option (table : gmap string Option) (o : Option)
  : gmap string Option :=
  fold_left (fun t name => <[name := o]> t) (names o) table.

Definition register_options (table : gmap string Option) (os : list Option)
  : gmap string Option :=
  fold_left register_option os table.

(** The lambda [nextCommand]. *)
Definition nextCommand (st : ParseState) (command : Command) : result ParseState :=
  let options' := register_options (known_options st) (cmd_options command) in
  let positionals' := positionals st ++ cmd_arguments command in
  (do _ <- checkPositionals positionals';
   ok (mkParseState (ps_options st) (ps_arguments st)
         (ps_commandChain st ++ [cmd_name command])
         command options' positionals' (haveStartedPositionals st)))%result.

(** [subcommands().value(cmd)]: a default-constructed command when absent. *)
Definition subcommand (c : Command) (key : string) : Command :=
  default default_Command (assoc key (cmd_subcommands c)).

(** The lambda [resolveAlias]. *)
Fixpoint resolveAlias (st : ParseState) (path : list string) : result ParseState :=
  match path with
  | [] => ok st
  | cmd :: path' =>
      (do st' <- nextCommand st (subcommand (currentCommand st) cmd);
       resolveAlias st' path')%result
  end.

Definition set_option (st : ParseState) (key value : string) : ParseState :=
  mkParseState (<[key := value]> (ps_options st)) (ps_arguments st)
    (ps_commandChain st) (currentCommand st) (known_options st)
    (positionals st) (haveStartedPositionals st).

(** The lambda [handleOption].  The iterator [it] is [None] for [nullptr],
    otherwise the item just read and the items still to come.  The boolean
    of the result tells whether [it->next()] was called. *)
Definition handleOption (st : ParseState) (name value : string)
    (hasValue : bool) (it : option (string * list string))
  : result (ParseState * bool) :=
  match known_options st !! name with
  | None => cl_throw UnknownOption ("Unknown option: --" +:+ name)
  | Some option =>
      if hasValue && negb (hasArgument option) then
        cl_throw UnexpectedArgument
          ("Didn't expect an argument in " +:+
           match it with Some (previous, _) => previous | None => name end)
      else if negb hasValue && hasArgument option && isArgumentRequired option then
        match it with
        | Some (_, next :: _) =>
            if negb (QString.startsWith next "-")
            then ok (set_option st (first_name option) next, true)
            else cl_throw MissingRequiredArgument
                   ("Missing required argument to --" +:+ name)
        | _ => cl_throw MissingRequiredArgument
                 ("Missing required argument to --" +:+ name)
        end
      else ok (set_option st (first_name option) value, false)
  end.

(** One iteration of the loop of [handleArguments].  [handleArguments] has
    thrown before the loop when [positionals] is empty and an argument is
    left, so [last()] is taken of a non-empty vector. *)
Definition store_argument (positionals : list PositionalArgument)
    (arguments : gmap string (list string)) (arg : string)
  : gmap string (list string) :=
  if bool_decide (length positionals = size arguments) then
    let key := arg_name (List.last positionals (mkPositional "" false false)) in
    <[key := default [] (arguments !! key) ++ [arg]]> arguments
  else
    <[arg_name (nth (size arguments) positionals (mkPositional "" false false))
        := [arg]]> arguments.

Definition number_to_string (n : nat) : string :=
  pretty n.

(** The lambda [handleArguments]. *)
Definition handleArguments (st : ParseState) (args : list string)
  : result ParseState :=
  let availablePositionals :=
    (list_sum (map (fun kv => length kv.2) (map_to_list (ps_arguments st)))
     + length args)%nat in
  let haveMulti :=
    match positionals st with
    | [] => false
    | _ => isMulti (List.last (positionals st) (mkPositional "" false false))
    end in
  if (length (positionals st) <? availablePositionals)%nat && negb haveMulti then
    cl_throw ToManyPositionals
      ("Expected no more than " +:+ number_to_string (length (positionals st)) +:+
       " positional arguments, got " +:+ number_to_string availablePositionals)
  else
    ok (mkParseState (ps_options st)
          (fold_left (store_argument (positionals st)) args (ps_arguments st))
          (ps_commandChain st) (currentCommand st) (known_options st)
          (positionals st) true).

(** *** The two option patterns *)

Definition is_alnum (c : ascii) : bool :=
  let n := N_of_ascii c in
  ((48 <=? n) && (n <=? 57) || (65 <=? n) && (n <=? 90) ||
   (97 <=? n) && (n <=? 122))%N.

(** The class [[A-Za-z0-9-\.]]. *)
Definition is_long_name_char (c : ascii) : bool :=
  is_alnum c || Ascii.eqb c "-" || Ascii.eqb c ".".

Definition newline : ascii := "010"%char.

(** The longest prefix of characters in the class, and what follows. *)
Fixpoint span (p : ascii → bool) (s : string) : string * string :=
  match s with
  | EmptyString => (EmptyString, EmptyString)
  | String c s' =>
      if p c then let '(a, b) := span p s' in (String c a, b)
      else (EmptyString, s)
  end.

(** The tail of both patterns: the optional group [valuecont], an equals
    sign followed by the group [value] (any characters), then the end
    anchor.  The result is the captured value and whether [valuecont] is
    non-empty.  The dot stops at a line feed and the anchor also matches
    before a final line feed. *)
Definition match_valuecont (rest : string) : option (string * bool) :=
  let at_end (s : string) :=
    orb (String.eqb s "") (String.eqb s (String newline "")) in
  match rest with
  | String "=" v =>
      let '(value, after) := span (fun c => negb (Ascii.eqb c newline)) v in
      if at_end after then Some (value, true) else None
  | _ => if at_end rest then Some ("", false) else None
  end.

(** [doubleOptionExpression]: two dashes, the group [name] (one or more of
    [[A-Za-z0-9-\.]]), then the tail. *)
Definition doubleOptionExpression (item : string)
  : option (string * string * bool) :=
  match item with
  | String "-" (String "-" s) =>
      let '(name, rest) := span is_long_name_char s in
      match name, match_valuecont rest with
      | String _ _, Some (value, hasValue) => Some (name, value, hasValue)
      | _, _ => None
      end
  | _ => None
  end.

(** [singleOptionExpression]: one dash, the group [names] (one or more of
    [[A-Za-z0-9]]), then the tail. *)
Definition singleOptionExpression (item : string)
  : option (string * string * bool) :=
  match item with
  | String "-" s =>
      let '(names_, rest) := span is_alnum s in
      match names_, match_valuecont rest with
      | String _ _, Some (value, hasValue) => Some (names_, value, hasValue)
      | _, _ => None
      end
  | _ => None
  end.

(** [QString::remove(QChar)]: every occurrence of the character goes. *)
Fixpoint remove_char (code : Z) (s : string) : string :=
  match s with
  | EmptyString => EmptyString
  | String c s' =>
      if Z.of_N (N_of_ascii c) =? code then remove_char code s'
      else String c (remove_char code s')
  end.

(** The loop [for (const QChar &option : items) handleOption(option,
    QString(), false, nullptr)]. *)
Fixpoint handle_each_char (st : ParseState) (items : string) : result ParseState :=
  match items with
  | EmptyString => ok st
  | String c items' =>
      match handleOption st (String c EmptyString) "" false None with
      | inl e => inl e
      | inr (st', _) => handle_each_char st' items'
      end
  end.

Definition contains_key {V : Type} (key : string) (m : list (string * V)) : bool :=
  match assoc key m with Some _ => true | None => false end.

(** The [while (it.hasNext())] loop of [Parser::parse]. *)
Fixpoint parse_items (st : ParseState) (items : list string) {struct items}
  : result ParseState :=
  match items with
  | [] => ok st
  | item :: rest =>
      let continue (r : result (ParseState * bool)) : result ParseState :=
        match r with
        | inl e => inl e
        | inr (st', false) => parse_items st' rest
        | inr (st', true) =>
            match rest with
            | [] => ok st'
            | _ :: rest' => parse_items st' rest'
            end
        end in
      if negb (haveStartedPositionals st) &&
         contains_key item (cmd_subcommands (currentCommand st)) then
        match nextCommand st (subcommand (currentCommand st) item) with
        | inl e => inl e
        | inr st' => parse_items st' rest
        end
      else if negb (haveStartedPositionals st) &&
              contains_key item (cmd_commandAliases (currentCommand st)) then
        match resolveAlias st
                (default [] (assoc item (cmd_commandAliases (currentCommand st)))) with
        | inl e => inl e
        | inr st' => parse_items st' rest
        end
      else if String.eqb item "--" then
        (* everything after a -- needs to be positional arguments *)
        handleArguments st rest
      else if QString.startsWith item "--" then
        match doubleOptionExpression item with
        | None => cl_throw MalformedOption ("Malformed option: " +:+ item)
        | Some (name, value, hasValue) =>
            continue (handleOption st name value hasValue (Some (item, rest)))
        end
      else if QString.startsWith item "-" then
        match singleOptionExpression item with
        | None => cl_throw MalformedOption ("Malformed option: " +:+ item)
        | Some (names_, value, hasValue) =>
            (* items.remove(items.size() - 1) resolves to remove(QChar) and
               returns the string itself *)
            let items_ := remove_char (QString.size names_ - 1) names_ in
            let last_ := items_ in
            match handle_each_char st items_ with
            | inl e => inl e
            | inr st' =>
                continue (handleOption st' last_ value hasValue (Some (item, rest)))
            end
        end
      else
        match handleArguments st [item] with
        | inl e => inl e
        | inr st' => parse_items st' rest
        end
  end.

(** The loop that fills in the defaults. *)
Definition fill_default (opts : gmap string string) (opt : Option)
  : gmap string string :=
  match opts !! first_name opt, defaultValue opt with
  | None, Some d => if hasArgument opt then <[first_name opt := d]> opts else opts
  | _, _ => opts
  end.

Definition fill_defaults (table : gmap string Option) (opts : gmap string string)
  : gmap string string :=
  fold_left fill_default (map_to_list table).*2 opts.

Definition initial_state : ParseState :=
  mkParseState ∅ ∅ [] default_Command ∅ [] false.

(** [Parser::parse].  The first item, the application name, is skipped. *)
Definition parse (parser : Command) (arguments : list string) : result Result :=
  (do st0 <- nextCommand initial_state parser;
   do st <- parse_items st0 (tail arguments);
   ok (mkResult (fill_defaults (known_options st) (ps_options st))
         (ps_arguments st) (ps_commandChain st) (known_options st)
         (positionals st)))%result.

(** The commands the parser can enter from [root]: the root itself and what
    [subcommands().value(key)] gives from a command already entered. *)
Inductive reachable (root : Command) : Command → Prop :=
| reachable_root : reachable root root
| reachable_sub (c : Command) (key : string) :
    reachable root c → reachable root (subcommand c key).

(** An option declared by the parser or one of its subcommands. *)
Definition declared (root : Command) (opt : Option) : Prop :=
  ∃ c, reachable root c ∧ opt ∈ cmd_options c.

(** The invariant of the parse loop: the table of known options holds
    declared options under their own names, and every stored option value
    is keyed by the first name of a declared option. *)
Definition table_ok (root : Command) (table : gmap string Option) : Prop :=
  ∀ name opt, table !! name = Some opt → name ∈ names opt ∧ declared root opt.

Definition keys_ok (root : Command) (opts : gmap string string) : Prop :=
  ∀ key value, opts !! key = Some value →
    ∃ opt, declared root opt ∧ names opt ≠ [] ∧ key = first_name opt.

Definition parse_inv (root : Command) (st : ParseState) : Prop :=
  reachable root (currentCommand st) ∧
  table_ok root (known_options st) ∧
  keys_ok root (ps_options st).

(** *** [Parser::handle] *)

Definition possibleOption (r : Result) (key : string) : Option :=
  default default_Option (res_possibleOptions r !! key).

(** Runs [f] on each element in order; the first that does not return ends
    the loop. *)
Fixpoint for_each {A : Type} (f : A → outcome unit) (l : list A) : outcome unit :=
  match l with
  | [] => Returns tt
  | x :: l' =>
      match f x with
      | Returns _ => for_each f l'
      | o => o
      end
  end.

Definition seq_outcome (a : outcome unit) (b : outcome unit) : outcome unit :=
  match a with
  | Returns _ => b
  | o => o
  end.

(** The walk down the command chain at the end of [handle]. *)
Fixpoint call_chain (handlers : Handlers) (r : Result) (cmd : Command)
    (chain : list string) : outcome unit :=
  match chain with
  | [] => Returns tt
  | command :: chain' =>
      let cmd' := subcommand cmd command in
      seq_outcome (call handlers (cmd_callback cmd') r)
                  (call_chain handlers r cmd' chain')
  end.

Definition handle (handlers : Handlers) (parser : Command) (r : Result)
  : outcome unit :=
  let keys := (map_to_list (res_options r)).*1 in
  seq_outcome
    (for_each
       (fun option =>
          let opt := possibleOption r option in
          if isEarlyExit opt then call handlers (opt_callback opt) r
          else Returns tt)
       keys)
  (seq_outcome
    (for_each
       (fun arg =>
          if negb (Result_hasArgument r (arg_name arg)) && negb (isOptional arg)
          then Throws (CommandLineException MissingPositionalArgument
                         ("Missing required positional argument '" +:+
                          arg_name arg +:+ "'") [])
          else Returns tt)
       (res_possiblePositionals r))
  (seq_outcome
    (for_each
       (fun option =>
          let opt := possibleOption r option in
          if negb (bool_decide (allowedValues opt = [])) &&
             negb (bool_decide (Result_value r option ∈ allowedValues opt))
          then Throws (CommandLineException InvalidOptionValue
                         ("The value to -" +:+
                          (if QString.size option =? 1 then "-" else "") +:+
                          option +:+ " is not allowed; valid values: " +:+
                          String.concat ", " (allowedValues opt)) [])
          else if negb (isEarlyExit opt) then call handlers (opt_callback opt) r
          else Returns tt)
       keys)
    (* the first item in the commandChain will be the Parser, so the initial
       item has it as a child *)
    (call_chain handlers r
       (mkCommand "" [] [] [(cmd_name parser, parser)] [] None)
       (res_commandChain r)))).

(** *** [Parser::process] *)

(** [Parser::printHelp] ends in [std::exit(0)]. *)
Definition printHelp : outcome Z := Exits 0.

(** The [try] block of [Parser::process(const QStringList &)]. *)
Definition process_try (handlers : Handlers) (parser : Command)
    (arguments : list string) : outcome Z :=
  match parse parser arguments with
  | inl e => Throws e
  | inr r =>
      match handle handlers parser r with
      | Returns _ =>
          if bool_decide (res_options r = ∅) &&
             bool_decide (res_arguments r = ∅) &&
             (Z.of_nat (length (res_commandChain r)) =? 1)
          then printHelp
          else Returns 0
      | Throws e => Throws e
      | Exits code => Exits code
      end
  end.

(** [Parser::process(const QStringList &)]: the [try] block under its three
    [catch] clauses, [BuildException] first, then [CommandLineException]
    (whose handler prints the help, which exits), then [Exception]. *)
Definition process (handlers : Handlers) (parser : Command)
    (arguments : list string) : outcome Z :=
  match process_try handlers parser arguments with
  | Throws (CommandLineException Build _ _) => Returns (-1)
  | Throws (CommandLineException _ _ _) => printHelp
  | Throws (Exception _) => Returns (-1)
  | Throws (GitException _ _) => Returns (-1)
  | o => o
  end.

(** The loop of [Parser::process(int argc, char **argv)]: [count] more
    rounds of [list.append(QString::fromLocal8Bit(argv[0]))]. *)
Fixpoint append_arguments (count : nat) (argv : list string) (list_ : list string)
  : list string :=
  match count with
  | O => list_
  | S count' => append_arguments count' argv (list_ ++ [nth 0 argv ""])
  end.

(** [Parser::process(int argc, char **argv)]. *)
Definition process_argv (handlers : Handlers) (parser : Command)
    (argc : Z) (argv : list string) : outcome Z :=
  process handlers parser (append_arguments (Z.to_nat argc) argv []).

(** ** Versions and version requirements *)

(** Modelled from the spec: the [Version] class is not among the sources.
    A version is a dotted numeric sequence with an optional trailing
    prerelease tag. *)
Record Version := mkVersion {
  components : list N;
  prerelease : option string
}.

(** Modelled from the spec: component-wise numeric comparison where absent
    components count as zero. *)
Fixpoint compare_components (a b : list N) {struct a} : comparison :=
  match a, b with
  | [], _ => if forallb (N.eqb 0) b then Eq else Lt
  | x :: a', [] =>
      match N.compare x 0 with
      | Eq => compare_components a' []
      | c => c
      end
  | x :: a', y :: b' =>
      match N.compare x y with
      | Eq => compare_components a' b'
      | c => c
      end
  end.

(** Modelled from the spec: a version without a prerelease tag sorts after
    one with the same components that has a tag; tags sort
    lexicographically. *)
Definition compare_prerelease (a b : option string) : comparison :=
  match a, b with
  | None, None => Eq
  | None, Some _ => Gt
  | Some _, None => Lt
  | Some s, Some t => String.compare s t
  end.

Definition version_compare (a b : Version) : comparison :=
  match compare_components (components a) (components b) with
  | Eq => compare_prerelease (prerelease a) (prerelease b)
  | c => c
  end.

(** [Version::operator<], the comparison [queryPackage] sorts with. *)
Definition version_lt (a b : Version) : bool :=
  match version_compare a b with Lt => true | _ => false end.

Definition version_le (a b : Version) : bool :=
  match version_compare a b with Gt => false | _ => true end.

Definition version_eq (a b : Version) : bool :=
  match version_compare a b with Eq => true | _ => false end.

(** The [i]-th component of a dotted sequence, zero when absent. *)
Definition comp (a : list N) (i : nat) : N := nth i a 0%N.

(** The order of the specification on component sequences: the first
    position where the two differ decides. *)
Definition lex_lt (a b : list N) : Prop :=
  ∃ i, (comp a i < comp b i)%N ∧ ∀ j, (j < i)%nat → comp a j = comp b j.

Definition lex_eq (a b : list N) : Prop := ∀ i, comp a i = comp b i.

Definition is_digit (c : ascii) : bool :=
  let n := N_of_ascii c in (48 <=? n)%N && (n <=? 57)%N.

(** A non-empty run of decimal digits. *)
Fixpoint parse_digits (acc : N) (s : string) : option N :=
  match s with
  | EmptyString => Some acc
  | String c s' =>
      if is_digit c then parse_digits (10 * acc + (N_of_ascii c - 48))%N s'
      else None
  end.

Definition parse_number (s : string) : option N :=
  match s with
  | EmptyString => None
  | _ => parse_digits 0%N s
  end.

Fixpoint parse_numbers (l : list string) : option (list N) :=
  match l with
  | [] => Some []
  | s :: l' =>
      match parse_number s, parse_numbers l' with
      | Some n, Some ns => Some (n :: ns)
      | _, _ => None
      end
  end.

(** Modelled from the spec: split on [.] into numeric components; the last
    component may carry a [-tag] suffix; empty input, non-numeric components
    and more than one [-] are rejected. *)
Definition version_fromString (s : string) : option Version :=
  match QString.split "-" s with
  | [nums] =>
      match parse_numbers (QString.split "." nums) with
      | Some ns => Some (mkVersion ns None)
      | None => None
      end
  | [nums; tag] =>
      match parse_numbers (QString.split "." nums) with
      | Some ns => Some (mkVersion ns (Some tag))
      | None => None
      end
  | _ => None
  end.

(** The clause operators of a requirement; a bare version is [OpEq]. *)
Inductive Op := OpEq | OpGe | OpGt | OpLe | OpLt | OpTilde | OpCaret.

(** Modelled from the spec: [VersionRequirement] is a conjunction of
    clauses; the empty requirement matches any version. *)
Definition VersionRequirement : Type := list (Op * Version).

Definition component (v : Version) (i : nat) : N := nth i (components v) 0%N.

(** Modelled from the spec: [~x.y] allows [[x.y, x.(y+1))]; [^x.y.z] allows
    [[x.y.z, (x+1).0.0)] when [x > 0], else [[x.y.z, x.(y+1).0)]. *)
Definition clause_satisfies (c : Op * Version) (v : Version) : bool :=
  let '(op, r) := c in
  match op with
  | OpEq => version_eq v r
  | OpGe => version_le r v
  | OpGt => version_lt r v
  | OpLe => version_le v r
  | OpLt => version_lt v r
  | OpTilde =>
      version_le r v &&
      version_lt v (mkVersion [component r 0; (component r 1 + 1)%N] None)
  | OpCaret =>
      version_le r v &&
      version_lt v
        (if (0 <? component r 0)%N
         then mkVersion [(component r 0 + 1)%N; 0%N; 0%N] None
         else mkVersion [component r 0; (component r 1 + 1)%N; 0%N] None)
  end.

(** [VersionRequirement::satisfies]: the AND of all clauses. *)
Definition satisfies (req : VersionRequirement) (v : Version) : bool :=
  forallb (fun c => clause_satisfies c v) req.

(** Splits a clause into its operator and the text of its version. *)
Definition clause_operator (s : string) : Op * string :=
  if QString.startsWith s ">=" then (OpGe, QString.mid s 2 (-1))
  else if QString.startsWith s "<=" then (OpLe, QString.mid s 2 (-1))
  else if QString.startsWith s "==" then (OpEq, QString.mid s 2 (-1))
  else if QString.startsWith s "=" then (OpEq, QString.mid s 1 (-1))
  else if QString.startsWith s ">" then (OpGt, QString.mid s 1 (-1))
  else if QString.startsWith s "<" then (OpLt, QString.mid s 1 (-1))
  else if QString.startsWith s "~" then (OpTilde, QString.mid s 1 (-1))
  else if QString.startsWith s "^" then (OpCaret, QString.mid s 1 (-1))
  else (OpEq, s).

Fixpoint parse_clauses (l : list string) : result VersionRequirement :=
  match l with
  | [] => ok []
  | s :: l' =>
      let '(op, text) := clause_operator s in
      match version_fromString text with
      | None => throw (Exception ("Invalid version requirement: " +:+ s))
      | Some v =>
          match parse_clauses l' with
          | inl e => inl e
          | inr cs => ok ((op, v) :: cs)
          end
      end
  end.

(** Modelled from the spec: a comma-separated list of clauses
    [<op><version>]; malformed input throws. *)
Definition VersionRequirement_fromString (s : string)
  : result VersionRequirement :=
  parse_clauses (QString.split "," s).

(** ** Packages, sources and databases *)

(** Modelled from the spec: [Package], [PackageSource] and
    [PackageDatabase] are declared outside the sources at hand.  The fields
    kept are the ones the client functions read. *)
Record Package := mkPackage {
  pkg_name : string;
  pkg_version : Version;
  pkg_source : string
}.

Record PackageSource := mkSource {
  src_name : string;
  typeString : string;
  lastUpdated : Z;              (* seconds since the epoch, UTC *)
  src_packages : list Package
}.

Inductive PackageDatabase :=
| mkDatabase (sources : list PackageSource)
             (parent : option PackageDatabase).

Definition db_sources (db : PackageDatabase) : list PackageSource :=
  match db with mkDatabase s _ => s end.

(** [std::sort] with the comparator [less], as an insertion sort.  The
    standard leaves the order of equivalent elements open; this model keeps
    them in input order. *)
Section Sort.
Context {A : Type} (less : A -> A -> bool).

Fixpoint sort_insert (x : A) (l : list A) : list A :=
  match l with
  | [] => [x]
  | y :: l' => if less x y then x :: y :: l' else y :: sort_insert x l'
  end.

Definition std_sort (l : list A) : list A :=
  fold_left (fun acc x => sort_insert x acc) l [].

(** No later element is less than an earlier one. *)
Fixpoint ascending (l : list A) : Prop :=
  match l with
  | [] => True
  | x :: l' => (∀ y, y ∈ l' → less y x = false) ∧ ascending l'
  end.
End Sort.

Definition package_less (a b : Package) : bool :=
  version_lt (pkg_version a) (pkg_version b).

(** Modelled from the spec: [PackageSource::findPackages] filters by exact
    name and by requirement, ascending by version. *)
Definition source_findPackages (s : PackageSource) (name : string)
    (req : VersionRequirement) : list Package :=
  std_sort package_less
    (List.filter
       (fun p => String.eqb (pkg_name p) name && satisfies req (pkg_version p))
       (src_packages s)).

(** Modelled from the spec: [PackageDatabase::findPackages] consults the
    chain of databases from the innermost scope outwards and unions the
    results. *)
Fixpoint findPackages (db : PackageDatabase) (name : string)
    (req : VersionRequirement) : list Package :=
  match db with
  | mkDatabase srcs parent =>
      flat_map (fun s => source_findPackages s name req) srcs ++
      match parent with
      | Some p => findPackages p name req
      | None => []
      end
  end.

(** ** [queryPackage] (client/Functions.cpp) *)

Definition no_package_other_versions (query : string) : exn :=
  Exception
    ("No package found for " +:+ query +:+
     ", but other versions are available").

Definition no_package (query : string) : exn :=
  Exception ("No package found for " +:+ query).

Definition queryPackage (db : PackageDatabase) (query : string)
  : result Package :=
  let splitIndex := QString.indexOf query "@" in
  let name := QString.mid query 0 splitIndex in
  (do version <-
     (if splitIndex =? -1 then ok []
      else VersionRequirement_fromString (QString.mid query (splitIndex + 1) (-1)));
   let candidates := std_sort package_less (findPackages db name version) in
   match candidates with
   | [] =>
       let haveOtherVersions :=
         negb (match findPackages db name [] with [] => true | _ => false end) in
       if haveOtherVersions then throw (no_package_other_versions query)
       else throw (no_package query)
   | first :: _ => ok first
   end)%result.

(** The name and the requirement a query string denotes, as [queryPackage]
    computes them. *)
Definition query_name (query : string) : string :=
  QString.mid query 0 (QString.indexOf query "@").

Definition query_requirement (query : string) : result VersionRequirement :=
  let splitIndex := QString.indexOf query "@" in
  if splitIndex =? -1 then ok []
  else VersionRequirement_fromString (QString.mid query (splitIndex + 1) (-1)).

(** Every package reachable from a database: its own sources, then the
    parent chain. *)
Fixpoint all_packages (db : PackageDatabase) : list Package :=
  match db with
  | mkDatabase srcs parent =>
      flat_map src_packages srcs ++
      match parent with
      | Some p => all_packages p
      | None => []
      end
  end.

(** ** The client state (client/Functions.cpp) *)

#[global] Instance Version_eq_dec : EqDecision Version.
Proof. solve_decision. Defined.
#[global] Instance Package_eq_dec : EqDecision Package.
Proof. solve_decision. Defined.

(** Modelled from the spec: a [PackageConfiguration] maps option keys to
    option values; [fromItems] reads [key=value] items, the rightmost
    winning. *)
Definition PackageConfiguration : Type := gmap string string.

Definition PackageConfiguration_fromItems (items : list string)
  : PackageConfiguration :=
  fold_left
    (fun cfg item =>
       let i := QString.indexOf item "=" in
       <[QString.mid item 0 i :=
           if i =? -1 then "" else QString.mid item (i + 1) (-1)]> cfg)
    items ∅.

(** The installed set of a [PackageGroup]. *)
Definition InstalledSet : Type := list (Package * PackageConfiguration).

(** What the client functions act on: the databases they can open, the
    installed sets per group, whether installing a given package fails (the
    fetches behind it are external), and the clock. *)
Record World := mkWorld {
  project_database : result PackageDatabase;           (* createDB() *)
  database_of_type : string → result (option PackageDatabase);
                                                       (* createDatabase(type) *)
  groups : gmap string InstalledSet;
  install_failure : Package → option exn;
  currentDateTimeUtc : Z
}.

Definition set_groups (w : World) (g : gmap string InstalledSet) : World :=
  mkWorld (project_database w) (database_of_type w) g (install_failure w)
          (currentDateTimeUtc w).

(** Modelled from the spec: [group.install(pkg, cfg)] is idempotent on an
    equal [(pkg, cfg)] and replaces the entry on a differing [cfg]. *)
Definition installed_add (pkg : Package) (cfg : PackageConfiguration)
    (s : InstalledSet) : InstalledSet :=
  if bool_decide ((pkg, cfg) ∈ s) then s
  else List.filter (fun e => negb (bool_decide (e.1 = pkg))) s ++ [(pkg, cfg)].

(** [awaitTerminal(db->group(group).install(pkg, config))]: the failure of
    the install task is rethrown, otherwise the installed set is updated. *)
Definition group_install (group : string) (pkg : Package)
    (cfg : PackageConfiguration) (w : World) : result World :=
  match install_failure w pkg with
  | Some e => throw e
  | None =>
      ok (set_groups w
            (<[group := installed_add pkg cfg (default [] (groups w !! group))]>
               (groups w)))
  end.

Definition group_isInstalled (group : string) (pkg : Package) (w : World)
  : bool :=
  existsb (fun e => bool_decide (e.1 = pkg)) (default [] (groups w !! group)).

(** [Functional::collection(c).map(f)]: the mapped collection is built
    element by element, in order; an exception thrown by [f] escapes. *)
Fixpoint collection_map {A B : Type} (f : A → result B) (c : list A)
  : result (list B) :=
  match c with
  | [] => ok []
  | x :: c' =>
      match f x with
      | inl e => inl e
      | inr y =>
          match collection_map f c' with
          | inl e => inl e
          | inr ys => ok (y :: ys)
          end
      end
  end.

(** [Functional::collection(c).each(f)] for an [f] that acts on the world:
    the elements are visited in order; an exception thrown by [f] escapes
    and leaves the effects of the earlier visits in place. *)
Fixpoint collection_each {A : Type} (f : A → World → result World)
    (c : list A) (w : World) : World * option exn :=
  match c with
  | [] => (w, None)
  | x :: c' =>
      match f x w with
      | inl e => (w, Some e)
      | inr w' => collection_each f c' w'
      end
  end.

(** [State::installPackage]: the world it leaves and the exception that
    escapes it, if any. *)
Definition installPackage (w : World) (r : Result) : World * option exn :=
  match project_database w with
  | inl e => (w, Some e)
  | inr db =>
      let group := Result_value r "group" in
      let config := PackageConfiguration_fromItems (Result_values r "config") in
      match collection_map (queryPackage db) (Result_argumentMulti r "packages") with
      | inl e => (w, Some e)
      | inr pkgs =>
          collection_each (fun pkg => group_install group pkg config) pkgs w
      end
  end.

(** *** [State::listSources] *)

Inductive Color := Green | Yellow | Red.

Definition lastUpdatedColor (now : Z) (source : PackageSource) : Color :=
  let secsSinceLastUpdate := now - lastUpdated source in
  if secsSinceLastUpdate <? 3600 * 24 * 1 then Green
  else if secsSinceLastUpdate <? 3600 * 24 * 7 then Yellow
  else Red.

(** What [listSources] writes to [std::cout], piece by piece. *)
Inductive Output :=
| Heading (databaseType : string)
    (* style(Bold, "Package sources in the %1 database:\n" % databaseType) *)
| SourceLine (name type : string) (color : Color) (updated : Z)
    (* " * " name " (type: %1, last updated: %2)\n" *)
| EmptyNotice
    (* "    Empty.\n    Use 'ralph sources add <name> <url>' to add a source!\n" *)
| NewLine.
    (* std::cout << '\n' *)

Definition database_unavailable : exn :=
  Exception "Database does not exists and unable to create it".

(** The lines printed for an open database. *)
Definition listing (now : Z) (databaseType : string) (db : PackageDatabase)
  : list Output :=
  Heading databaseType ::
  map (fun s => SourceLine (src_name s) (typeString s)
                  (lastUpdatedColor now s) (lastUpdated s))
      (db_sources db) ++
  (if bool_decide (db_sources db = []) then [EmptyNotice] else []).

#[global] Instance PackageSource_eq_dec : EqDecision PackageSource.
Proof. solve_decision. Defined.

(** The lambda [output] of [listSources]. *)
Definition output (w : World) (databaseType : string) (force : bool)
  : result (list Output) :=
  (do db <- database_of_type w databaseType;
   match db with
   | None => if force then throw database_unavailable else ok []
   | Some d => ok (listing (currentDateTimeUtc w) databaseType d)
   end)%result.

(** Runs [next] after [printed] has been written: what was written stays
    written when [next] throws. *)
Definition then_print (printed : list Output)
    (next : result (list Output)) (k : list Output → list Output * option exn)
  : list Output * option exn :=
  match next with
  | inl e => (printed, Some e)
  | inr out => k (printed ++ out)
  end.

Definition listSources (w : World) (r : Result) : list Output * option exn :=
  let database := Result_value r "database" in
  then_print [] (output w database true) (fun out1 =>
  let k2 out := 
    if String.eqb database "user" then
      then_print (out ++ [NewLine]) (output w "system" false) (fun o => (o, None))
    else (out, None) in
  if String.eqb database "project" then
    then_print (out1 ++ [NewLine]) (output w "user" false) (fun out2 =>
    then_print (out2 ++ [NewLine]) (output w "system" false) k2)
  else k2 out1).

(** ** Promises (clientlib/future/Promise.cpp) *)

Module BaseFutureData.
(** The lifecycle states; [Promise.cpp] sets the last three, [Running] is
    set by [BaseFutureData::start]. *)
Inductive State := NotStarted | Running | Finished | Canceled | Exception.
End BaseFutureData.

(** The signals of [BaseFutureWatcher]. *)
Inductive Signal :=
| sig_started
| sig_finished
| sig_canceled
| sig_progress (current total : N)
| sig_status (message : string)
| sig_exception.

(** Modelled from the spec: [BaseFutureData] is declared in a header that
    is not among the sources; the fields are the members [Promise.cpp]
    touches.  [delegateTo] is the address of the promise data delegated to.
    [emitted] stands for the watchers: [BasePromise::report] sends each
    signal to every watcher in [d->watchers], and [emitted] keeps the
    signals sent, oldest first.  The two mutexes guard the fields against
    other threads and have no counterpart here. *)
Record BaseFutureData := mkData {
  state : BaseFutureData.State;
  progressCurrent : N;
  progressTotal : N;
  status : string;
  exception : option exn;
  delegateTo : option nat;
  emitted : list Signal
}.

(** The shared promise data, by address. *)
Abbreviation Store := (gmap nat BaseFutureData).

(** [BasePromise::report]. *)
Definition report (sig : Signal) (d : BaseFutureData) : BaseFutureData :=
  mkData (state d) (progressCurrent d) (progressTotal d) (status d)
         (exception d) (delegateTo d) (emitted d ++ [sig]).

Definition set_state (st : BaseFutureData.State) (d : BaseFutureData)
  : BaseFutureData :=
  mkData st (progressCurrent d) (progressTotal d) (status d)
         (exception d) (delegateTo d) (emitted d).

Definition set_progress (current total : N) (d : BaseFutureData)
  : BaseFutureData :=
  mkData (state d) current total (status d)
         (exception d) (delegateTo d) (emitted d).

Definition set_status (message : string) (d : BaseFutureData)
  : BaseFutureData :=
  mkData (state d) (progressCurrent d) (progressTotal d) message
         (exception d) (delegateTo d) (emitted d).

Definition set_exception (e : exn) (d : BaseFutureData) : BaseFutureData :=
  mkData BaseFutureData.Exception (progressCurrent d) (progressTotal d)
         (status d) (Some e) (delegateTo d) (emitted d).

(** A promise is the address [p] of its data [d].  A call on an address
    without data does not return a store. *)
Definition update (p : nat) (f : BaseFutureData → BaseFutureData) (s : Store)
  : option Store :=
  match s !! p with
  | Some d => Some (<[p := f d]> s)
  | None => None
  end.

Definition reportStarted (p : nat) (s : Store) : option Store :=
  (* setting the state is done from BaseFutureData::start *)
  update p (report sig_started) s.

Definition reportFinished (p : nat) (s : Store) : option Store :=
  update p (fun d => report sig_finished (set_state BaseFutureData.Finished d)) s.

Definition reportCanceled (p : nat) (s : Store) : option Store :=
  update p (fun d => report sig_canceled (set_state BaseFutureData.Canceled d)) s.

(** The three delegating reports recurse along [delegateTo]; [fuel] bounds
    the depth of the recursion, and [None] means it was not enough. *)
Fixpoint reportProgress (fuel : nat) (p : nat) (current total : N) (s : Store)
  : option Store :=
  match fuel with
  | O => None
  | S fuel' =>
      match s !! p with
      | None => None
      | Some d =>
          let s' := <[p := report (sig_progress current total)
                              (set_progress current total d)]> s in
          match delegateTo d with
          | Some q => reportProgress fuel' q current total s'
          | None => Some s'
          end
      end
  end.

Fixpoint reportStatus (fuel : nat) (p : nat) (message : string) (s : Store)
  : option Store :=
  match fuel with
  | O => None
  | S fuel' =>
      match s !! p with
      | None => None
      | Some d =>
          let s' := <[p := report (sig_status message) (set_status message d)]> s in
          match delegateTo d with
          | Some q => reportStatus fuel' q message s'
          | None => Some s'
          end
      end
  end.

Fixpoint reportException (fuel : nat) (p : nat) (e : exn) (s : Store)
  : option Store :=
  match fuel with
  | O => None
  | S fuel' =>
      match s !! p with
      | None => None
      | Some d =>
          let s' := <[p := report sig_exception (set_exception e d)]> s in
          match delegateTo d with
          | Some q => reportException fuel' q e s'
          | None => Some s'
          end
      end
  end.

(** A progress report, a status string or a failure, as a value. *)
Inductive Report :=
| Progress (current total : N)
| Status (message : string)
| Failure (e : exn).

Definition send (fuel : nat) (p : nat) (r : Report) (s : Store) : option Store :=
  match r with
  | Progress current total => reportProgress fuel p current total s
  | Status message => reportStatus fuel p message s
  | Failure e => reportException fuel p e s
  end.

(** A sequence of reports on one promise, in order. *)
Fixpoint send_all (fuel : nat) (p : nat) (rs : list Report) (s : Store)
  : option Store :=
  match rs with
  | [] => Some s
  | r :: rs' =>
      match send fuel p r s with
      | Some s' => send_all fuel p rs' s'
      | None => None
      end
  end.

(** What one report does to the data of a promise it reaches. *)
Definition receive (d : BaseFutureData) (r : Report) : BaseFutureData :=
  match r with
  | Progress current total =>
      report (sig_progress current total) (set_progress current total d)
  | Status message => report (sig_status message) (set_status message d)
  | Failure e => report sig_exception (set_exception e d)
  end.

Definition signal_of (r : Report) : Signal :=
  match r with
  | Progress current total => sig_progress current total
  | Status message => sig_status message
  | Failure _ => sig_exception
  end.

(** The delegation chain of a promise: the promise, the one it delegates
    to, and so on up to one that delegates to nobody. *)
Inductive chain (s : Store) : nat → list nat → Prop :=
| chain_end (p : nat) (d : BaseFutureData) :
    s !! p = Some d → delegateTo d = None → chain s p [p]
| chain_step (p q : nat) (d : BaseFutureData) (ch : list nat) :
    s !! p = Some d → delegateTo d = Some q → chain s q ch →
    chain s p (p :: ch).

(** ** The git driver (clientlib/git/GitRepo.cpp) *)

(** The credential type bits of libgit2's [git_credtype_t] and its
    [GIT_EUSER] error code, as the library's headers give them. *)
Definition GIT_CREDTYPE_USERPASS_PLAINTEXT : Z := 1.
Definition GIT_CREDTYPE_SSH_KEY : Z := 2.
Definition GIT_CREDTYPE_SSH_CUSTOM : Z := 4.
Definition GIT_CREDTYPE_DEFAULT : Z := 8.
Definition GIT_CREDTYPE_SSH_INTERACTIVE : Z := 16.
Definition GIT_CREDTYPE_USERNAME : Z := 32.
Definition GIT_EUSER : Z := -7.

(** The credential material a [git_cred] carries. *)
Inductive git_cred :=
| cred_username (username : string)
| cred_userpass_plaintext (username password : string)
| cred_ssh_key (username pubkeyPath privkeyPath passphrase : string)
| cred_default.

Module GitCredentialQuery.
Inductive Type_ :=
| Default | Username | UsernamePassword | SSHKey | SSHCustom | SSHInteractive.
End GitCredentialQuery.

(** Modelled from the spec: [GitCredentialQuery] and
    [GitCredentialResponse] are declared in a header that is not among the
    sources.  The flags [Types] are kept as the list of the types that are
    set.  A response holds the credential pointer ([None] for [nullptr]); the
    default constructor, used by [createError], marks the error. *)
Record GitCredentialQuery := mkQuery {
  allowedTypes : list GitCredentialQuery.Type_;
  url : string;
  usernameFromUrl : string
}.

Record GitCredentialResponse := mkResponse {
  m_cred : option git_cred;
  isError : bool
}.

(** The constructor of [GitCredentialResponse] from a credential pointer. *)
Definition GitCredentialResponse_of (cred : option git_cred)
  : GitCredentialResponse :=
  mkResponse cred false.

Definition createInvalid : GitCredentialResponse := GitCredentialResponse_of None.
Definition createError : GitCredentialResponse := mkResponse None true.

(** The four [createFor...] functions; [rc] is what the libgit2 constructor
    of the credential returns. *)
Definition createForUsername (rc : Z) (username : string) : GitCredentialResponse :=
  if rc <? 0 then createError
  else GitCredentialResponse_of (Some (cred_username username)).

Definition createForUsernamePassword (rc : Z) (username password : string)
  : GitCredentialResponse :=
  if rc <? 0 then createError
  else GitCredentialResponse_of (Some (cred_userpass_plaintext username password)).

Definition createForSSHKey (rc : Z)
    (username pubkeyPath privkeyPath passthrase : string) : GitCredentialResponse :=
  if rc <? 0 then createError
  else GitCredentialResponse_of
         (Some (cred_ssh_key username pubkeyPath privkeyPath passthrase)).

Definition createForDefault (rc : Z) : GitCredentialResponse :=
  if rc <? 0 then createError else GitCredentialResponse_of (Some cred_default).

(** [response.result()]. *)
Definition response_result (r : GitCredentialResponse) : option git_cred := m_cred r.

(** The query [credentialsCallback] builds from the libgit2 challenge: one
    [if] per type bit, in the order of the source. *)
Definition credentials_query (url usernameFromUrl : string) (allowedTypes : Z)
  : GitCredentialQuery :=
  let flag (bit : Z) (t : GitCredentialQuery.Type_) :=
    if Z.land allowedTypes bit =? 0 then [] else [t] in
  mkQuery
    (flag GIT_CREDTYPE_DEFAULT GitCredentialQuery.Default ++
     flag GIT_CREDTYPE_USERNAME GitCredentialQuery.Username ++
     flag GIT_CREDTYPE_USERPASS_PLAINTEXT GitCredentialQuery.UsernamePassword ++
     flag GIT_CREDTYPE_SSH_CUSTOM GitCredentialQuery.SSHCustom ++
     flag GIT_CREDTYPE_SSH_INTERACTIVE GitCredentialQuery.SSHInteractive ++
     flag GIT_CREDTYPE_SSH_KEY GitCredentialQuery.SSHKey)
    url usernameFromUrl.

(** [GitRepo::credentialsCallback]: the return code and the content of
    [*out] afterwards.  [m_credentialsFunc] is the broker registered with
    [setCredentialsCallback]. *)
Definition credentialsCallback
    (m_credentialsFunc : GitCredentialQuery → GitCredentialResponse)
    (out : option git_cred) (url usernameFromUrl : string) (allowedTypes : Z)
  : Z * option git_cred :=
  let query := credentials_query url usernameFromUrl allowedTypes in
  let response := m_credentialsFunc query in
  match response_result response with
  | None => (if isError response then GIT_EUSER else 1, out)
  | Some cred => (0, Some cred)
  end.

#[global] Instance Type_eq_dec : EqDecision GitCredentialQuery.Type_.
Proof. solve_decision. Defined.

(** The broker that [State::State] registers: it asks for a user name and a
    password when the challenge allows them; [typed] and [password] are what
    the user enters, [rc] what libgit2 returns for the new credential. *)
Definition State_credentials (typed password : string) (rc : Z)
    (query : GitCredentialQuery) : GitCredentialResponse :=
  if bool_decide (GitCredentialQuery.UsernamePassword ∈ allowedTypes query) then
    createForUsernamePassword rc
      (if String.eqb typed "" then usernameFromUrl query else typed) password
  else createInvalid.

(** *** Tasks *)

(** A task body runs against the store of promise data; it can throw, and
    it returns nothing when a report runs out of fuel. *)
Definition Task (A : Type) : Type := Store → option (Store * result A).

Definition task_ret {A} (a : A) : Task A := fun s => Some (s, inr a).

Definition task_throw {A} (e : exn) : Task A := fun s => Some (s, inl e).

Definition task_bind {A B} (m : Task A) (k : A → Task B) : Task B :=
  fun s =>
    match m s with
    | None => None
    | Some (s', inl e) => Some (s', inl e)
    | Some (s', inr a) => k a s'
    end.

(** A store update as a task. *)
Definition task_of (f : Store → option Store) : Task unit :=
  fun s => match f s with Some s' => Some (s', inr tt) | None => None end.

(** [Notifier::status] and [Notifier::progress] call the promise of the
    task. *)
Definition notifier_status (fuel : nat) (notifier : nat) (message : string)
  : Task unit :=
  task_of (reportStatus fuel notifier message).

Definition notifier_progress (fuel : nat) (notifier : nat) (current total : N)
  : Task unit :=
  task_of (reportProgress fuel notifier current total).

(** Modelled from the spec: [async] and [Notifier::await] are declared in
    headers that are not among the sources.  Awaiting a subordinate makes
    its promise delegate to the promise of the awaiting task, runs it to
    its end ([started], then the body, then [finished] or the failure) and
    rethrows its failure. *)
Definition await {A} (fuel : nat) (notifier : nat) (body : nat → Task A)
  : Task A :=
  fun s =>
    let q := fresh (dom s) in
    let s0 := <[q := mkData BaseFutureData.Running 0 0 "" None (Some notifier) []]> s in
    match reportStarted q s0 with
    | None => None
    | Some s1 =>
        match body q s1 with
        | None => None
        | Some (s2, inr a) =>
            match reportFinished q s2 with
            | Some s3 => Some (s3, inr a)
            | None => None
            end
        | Some (s2, inl e) =>
            match reportException fuel q e s2 with
            | Some s3 => Some (s3, inl e)
            | None => None
            end
        end
    end.

(** *** Fetch, checkout and pull *)

(** What libgit2 does for one repository: the return codes of its calls,
    the progress callbacks it makes during a fetch and during the checkout
    of a revision, and the message of [giterr_last]. *)
Record GitBehaviour := mkGit {
  git_remote_lookup : Z;
  transfer_progress : list (N * N);   (* received_objects, total_objects *)
  git_remote_fetch : Z;
  git_revparse_single : string → Z;
  checkout_progress : string → list (N * N);   (* current, total *)
  git_checkout_tree : string → Z;
  giterr_last : string
}.

(** [GitException::checkAndThrow]. *)
Definition checkAndThrow (git : GitBehaviour) (error : Z) : Task unit :=
  if error <? 0 then task_throw (GitException (giterr_last git) error)
  else task_ret tt.

Inductive PayloadState := Initial | Fetching | CheckingOut.

Record GitPayload := mkPayload {
  pl_notifier : nat;
  identifier : string;
  pl_state : PayloadState
}.

Definition set_payload_state (pl : GitPayload) (st : PayloadState) : GitPayload :=
  mkPayload (pl_notifier pl) (identifier pl) st.

(** [gitCheckoutNotifier]: the payload afterwards and the reports made. *)
Definition gitCheckoutNotifier (fuel : nat) (current total : N) (pl : GitPayload)
  : Task GitPayload :=
  task_bind
    (match pl_state pl with
     | CheckingOut => task_ret pl
     | _ =>
         task_bind
           (notifier_status fuel (pl_notifier pl)
              ("Checking out " +:+ identifier pl +:+ "..."))
           (fun _ => task_ret (set_payload_state pl CheckingOut))
     end)
    (fun pl' =>
       task_bind (notifier_progress fuel (pl_notifier pl') current total)
                 (fun _ => task_ret pl')).

(** [gitFetchNotifier]. *)
Definition gitFetchNotifier (fuel : nat) (stats : N * N) (pl : GitPayload)
  : Task GitPayload :=
  task_bind
    (match pl_state pl with
     | Fetching => task_ret pl
     | _ =>
         task_bind (notifier_status fuel (pl_notifier pl) "Fetching...")
                   (fun _ => task_ret (set_payload_state pl Fetching))
     end)
    (fun pl' =>
       task_bind (notifier_progress fuel (pl_notifier pl') stats.1 stats.2)
                 (fun _ => task_ret pl')).

(** A libgit2 call that makes its callbacks one after the other. *)
Fixpoint callbacks {X : Type} (cb : X → GitPayload → Task GitPayload)
    (calls : list X) (pl : GitPayload) : Task GitPayload :=
  match calls with
  | [] => task_ret pl
  | x :: calls' => task_bind (cb x pl) (callbacks cb calls')
  end.

(** The closure of [GitRepo::fetch]. *)
Definition fetch (fuel : nat) (git : GitBehaviour) (notifier : nat) : Task unit :=
  task_bind (checkAndThrow git (git_remote_lookup git)) (fun _ =>
  let payload := mkPayload notifier "" Initial in
  task_bind (callbacks (gitFetchNotifier fuel) (transfer_progress git) payload)
    (fun _ =>
  checkAndThrow git (git_remote_fetch git))).

(** The closure of [GitRepo::checkout]. *)
Definition checkout (fuel : nat) (git : GitBehaviour) (id : string)
    (notifier : nat) : Task unit :=
  task_bind (checkAndThrow git (git_revparse_single git id)) (fun _ =>
  let payload := mkPayload notifier id Initial in
  task_bind
    (callbacks (fun step => gitCheckoutNotifier fuel step.1 step.2)
               (checkout_progress git id) payload)
    (fun _ =>
  checkAndThrow git (git_checkout_tree git id))).

(** The closure of [GitRepo::pull]. *)
Definition pull (fuel : nat) (git : GitBehaviour) (id : string) (notifier : nat)
  : Task unit :=
  task_bind (await fuel notifier (fetch fuel git)) (fun _ =>
  await fuel notifier (checkout fuel git id)).

(** A task that makes the reports [rs] on the promise [p] and ends with
    [res]. *)
Definition reports_then {A : Type} (fuel : nat) (p : nat) (rs : list Report)
    (res : result A) : Task A :=
  fun s =>
    match send_all fuel p rs s with
    | Some s' => Some (s', res)
    | None => None
    end.

(** *** Fetch then checkout, as one stream *)

(** The reports a fetch makes on its own promise, and how it ends. *)
Definition fetch_result (git : GitBehaviour) : result unit :=
  if git_remote_lookup git <? 0
  then throw (GitException (giterr_last git) (git_remote_lookup git))
  else if git_remote_fetch git <? 0
  then throw (GitException (giterr_last git) (git_remote_fetch git))
  else ok tt.

Definition fetch_reports (git : GitBehaviour) : list Report :=
  if git_remote_lookup git <? 0 then []
  else match transfer_progress git with
       | [] => []
       | stats => Status "Fetching..." :: map (fun st => Progress st.1 st.2) stats
       end.

(** The same for the checkout of [id]. *)
Definition checkout_result (git : GitBehaviour) (id : string) : result unit :=
  if git_revparse_single git id <? 0
  then throw (GitException (giterr_last git) (git_revparse_single git id))
  else if git_checkout_tree git id <? 0
  then throw (GitException (giterr_last git) (git_checkout_tree git id))
  else ok tt.

Definition checkout_reports (git : GitBehaviour) (id : string) : list Report :=
  if git_revparse_single git id <? 0 then []
  else match checkout_progress git id with
       | [] => []
       | steps =>
           Status ("Checking out " +:+ id +:+ "...") ::
           map (fun st => Progress st.1 st.2) steps
       end.

(** What a subtask delegates to the task that awaits it: its reports, then
    its failure if it fails. *)
Definition delegated (reports : list Report) (res : result unit) : list Report :=
  reports ++ match res with inl e => [Failure e] | inr _ => [] end.

(** The specification of [pull(ref)], in its own words: [fetch()] then
    [checkout(ref)], delegated as one progress stream; the checkout does not
    start when the fetch fails.  [pull_spec_stream] is that stream and
    [pull_spec_result] the way the composite task ends. *)
Definition pull_spec_stream (git : GitBehaviour) (id : string) : list Report :=
  delegated (fetch_reports git) (fetch_result git) ++
  match fetch_result git with
  | inl _ => []
  | inr _ => delegated (checkout_reports git id) (checkout_result git id)
  end.

Definition pull_spec_result (git : GitBehaviour) (id : string) : result unit :=
  match fetch_result git with
  | inl e => inl e
  | inr _ => checkout_result git id
  end.

(** A repository whose fetch and checkout of [main] succeed. *)
Definition sample_git : GitBehaviour :=
  mkGit 0 [(1, 2); (2, 2)]%N 0 (fun _ => 0) (fun _ => [(5, 5)]%N) (fun _ => 0) "".

(** Two stores with the same delegation links. *)
Definition same_links (s s' : Store) : Prop :=
  ∀ x, delegateTo <$> (s !! x) = delegateTo <$> (s' !! x).

(** The report [r] received by every promise of [ch], first to last. *)
Definition receive_along (ch : list nat) (r : Report) (s : Store) : Store :=
  fold_left (fun s x => alter (fun d => receive d r) x s) ch s.

(** A pull task at address 0 and a subtask at address 1 that delegates to
    it. *)
Definition fresh_data (target : option nat) : BaseFutureData :=
  mkData BaseFutureData.Running 0 0 "" None target [].

Definition pull_store : Store := {[ 0%nat := fresh_data None; 1%nat := fresh_data (Some 0%nat) ]}.

(** *** A database with [foo] at 1.0, 1.2 and 2.0 *)

Definition v1_0 : Version := mkVersion [1%N; 0%N] None.
Definition v1_2 : Version := mkVersion [1%N; 2%N] None.
Definition v2_0 : Version := mkVersion [2%N; 0%N] None.

Definition foo_1_0 : Package := mkPackage "foo" v1_0 "origin".
Definition foo_1_2 : Package := mkPackage "foo" v1_2 "origin".
Definition foo_2_0 : Package := mkPackage "foo" v2_0 "origin".
Definition bar_1_0 : Package := mkPackage "bar" v1_0 "origin".

Definition origin : PackageSource :=
  mkSource "origin" "git" 0 [foo_1_0; foo_1_2; foo_2_0; bar_1_0].

Definition sample_db : PackageDatabase := mkDatabase [origin] None.

(** *** A world for the install pipeline and for [sources list] *)

Definition user_source : PackageSource := mkSource "home" "git" 0 [].

Definition sample_world : World :=
  mkWorld (ok sample_db)
          (fun type =>
             if String.eqb type "project" then ok (Some sample_db)
             else if String.eqb type "user" then ok (Some (mkDatabase [user_source] None))
             else if String.eqb type "system" then ok (Some (mkDatabase [] None))
             else ok None)
          ∅ (fun _ => None) 86400.

(** [install nope bar]: the first query names no package, the second
    resolves. *)
Definition install_nope_bar : Result :=
  mkResult ∅ {[ "packages" := ["nope"; "bar"] ]} ["ralph"; "install"] ∅ [].

Definition sources_list (database : string) : Result :=
  mkResult {[ "database" := database ]} ∅ ["ralph"; "sources"; "list"] ∅ [].

(** C3 as the claim words it: every query of the invocation that resolves
    to a package whose install does not fail ends up installed, whatever
    happens to the other queries. *)
Definition processes_all_packages (w : World) (r : Result) : Prop :=
  ∀ db q pkg,
    project_database w = inr db →
    q ∈ Result_argumentMulti r "packages" →
    queryPackage db q = inr pkg →
    install_failure w pkg = None →
    group_isInstalled (Result_value r "group") pkg (installPackage w r).1 = true.

(** *** The ralph command line, wired to the client state *)

Definition opt_version : Option :=
  mkOption ["version"; "v"] false false None [] true (Some 0%nat).
Definition opt_database : Option :=
  mkOption ["database"; "d"] true true (Some "project")
           ["project"; "user"; "system"] false None.
Definition opt_group : Option :=
  mkOption ["group"; "g"] true false None [] false None.

Definition cmd_list : Command := mkCommand "list" [] [] [] [] (Some 1%nat).
Definition cmd_sources : Command :=
  mkCommand "sources" [opt_database] [] [("list", cmd_list)] [] None.
Definition cmd_install : Command :=
  mkCommand "install" [opt_group] [mkPositional "packages" true false] [] []
            (Some 2%nat).
Definition ralph : Command :=
  mkCommand "ralph" [opt_version] []
            [("sources", cmd_sources); ("install", cmd_install)]
            [("ls", ["sources"; "list"])] None.

(** Callback 0 is [printVersion], which exits; 1 is [State::listSources];
    2 is [State::installPackage]. *)
Definition ralph_handlers (w : World) : Handlers :=
  fun id r =>
    match id with
    | 0%nat => Exits 0
    | 1%nat => match (listSources w r).2 with
               | Some e => Throws e
               | None => Returns tt
               end
    | 2%nat => match (installPackage w r).2 with
               | Some e => Throws e
               | None => Returns tt
               end
    | _ => Returns tt
    end.

(** C4 as the claim words it: 0 on success, 1 when an ordinary exception
    reports a failure to the user, -1 only for logic errors. *)
Definition exit_code_convention (handlers : Handlers) (parser : Command)
    (arguments : list string) : Prop :=
  (∀ m, process_try handlers parser arguments = Throws (Exception m) →
        process handlers parser arguments = Returns 1) ∧
  (process handlers parser arguments = Returns (-1) →
   ∃ m chain, process_try handlers parser arguments
              = Throws (CommandLineException Build m chain)).

(** ** Further definitions for the properties beyond the specification *)

(** What [Command::checkPositionals] accepts, by position: only the last
    argument is multi, nothing before a multi last argument is optional,
    and no required argument follows an optional one. *)
Definition positionals_wellformed (arguments : list PositionalArgument) : Prop :=
  (∀ i a, arguments !! i = Some a → isMulti a = true →
          S i = length arguments) ∧
  (∀ i a l, arguments !! i = Some a → (S i < length arguments)%nat →
            List.last arguments (mkPositional "" false false) = l →
            isMulti l = true → isOptional a = false) ∧
  (∀ i j a b, (i < j)%nat → arguments !! i = Some a → arguments !! j = Some b →
              isOptional a = true → isOptional b = true).

(** The inner loop of [checkPositionals] that looks for a required argument
    after an optional one. *)
Fixpoint required_after_optional (haveHadOptional : bool)
    (l : list PositionalArgument) : bool :=
  match l with
  | [] => false
  | arg :: l' =>
      if haveHadOptional && negb (isOptional arg) then true
      else required_after_optional (haveHadOptional || isOptional arg) l'
  end.

(** Every character of a string is in a class. *)
Fixpoint all_chars (p : ascii → bool) (s : string) : bool :=
  match s with
  | EmptyString => true
  | String c s' => p c && all_chars p s'
  end.

(** An exception of the [CommandLineException] family, as the parser throws
    them. *)
Definition is_usage_error (e : exn) : Prop :=
  ∃ kind message, e = CommandLineException kind message [].

(** [State::checkPackage]: the exception that escapes it, if any.  It reads
    the world and leaves it as it is. *)
Definition not_installed (pkg : Package) : exn :=
  Exception (pkg_name pkg +:+ " is not installed").

Fixpoint check_each (group : string) (w : World) (pkgs : list Package)
  : option exn :=
  match pkgs with
  | [] => None
  | pkg :: pkgs' =>
      if negb (group_isInstalled group pkg w) then Some (not_installed pkg)
      else check_each group w pkgs'
  end.

Definition checkPackage (w : World) (r : Result) : option exn :=
  match project_database w with
  | inl e => Some e
  | inr db =>
      let group := Result_value r "group" in
      match collection_map (queryPackage db) (Result_argumentMulti r "packages") with
      | inl e => Some e
      | inr pkgs => check_each group w pkgs
      end
  end.

(** The order of the colours of [lastUpdatedColor], freshest first. *)
Definition color_rank (c : Color) : Z :=
  match c with Green => 0 | Yellow => 1 | Red => 2 end.

(** What [output] prints for a database that may be missing. *)
Definition optional_listing (now : Z) (databaseType : string)
    (db : option PackageDatabase) : list Output :=
  match db with
  | Some d => listing now databaseType d
  | None => []
  end.

(** A world where [foo] 1.0 is installed in the default group. *)
Definition installed_world : World :=
  mkWorld (ok sample_db) (fun _ => ok None) {[ "" := [(foo_1_0, ∅)] ]}
          (fun _ => None) 0.

Definition check_foo_bar : Result :=
  mkResult ∅ {[ "packages" := ["foo"; "bar"] ]} ["ralph"; "check"] ∅ [].

(** A set of promises closed under delegation: each of them has data and
    delegates to another of them, so its delegation chain never ends. *)
Definition endless (s : Store) (cycle : nat → Prop) : Prop :=
  ∀ x, cycle x → ∃ d y, s !! x = Some d ∧ delegateTo d = Some y ∧ cycle y.

(** A report that is not a failure. *)
Definition is_notice (r : Report) : bool :=
  match r with Failure _ => false | _ => true end.

(** The libgit2 bit of each credential type of a query. *)
Definition credtype_bit (t : GitCredentialQuery.Type_) : Z :=
  match t with
  | GitCredentialQuery.Default => GIT_CREDTYPE_DEFAULT
  | GitCredentialQuery.Username => GIT_CREDTYPE_USERNAME
  | GitCredentialQuery.UsernamePassword => GIT_CREDTYPE_USERPASS_PLAINTEXT
  | GitCredentialQuery.SSHKey => GIT_CREDTYPE_SSH_KEY
  | GitCredentialQuery.SSHCustom => GIT_CREDTYPE_SSH_CUSTOM
  | GitCredentialQuery.SSHInteractive => GIT_CREDTYPE_SSH_INTERACTIVE
  end.










(** The first loop of [Parser::handle] for one key: the callback of an
    early exit option. *)
Definition early_exit_call (handlers : Handlers) (r : Result) (key : string)
  : outcome unit :=
  let opt := possibleOption r key in
  if isEarlyExit opt then call handlers (opt_callback opt) r else Returns tt.

(** [ralph install --version]: the early exit option is given and the
    required positional argument is not. *)
Definition install_version : Result :=
  mkResult {[ "version" := "" ]} ∅ ["ralph"; "install"]
           (register_options ∅ [opt_version; opt_group])
           [mkPositional "packages" true false].

(** * Properties of [queryPackage] *)

Section SortFacts.
Context {A : Type} (less : A -> A -> bool).

Lemma elem_of_sort_insert (x y : A) (l : list A) :
  y ∈ sort_insert less x l ↔ y = x ∨ y ∈ l.
Proof.
  induction l as [|z l IH]; simpl.
  - rewrite list_elem_of_singleton. set_solver.
  - destruct (less x z); set_solver.
Qed.

Lemma elem_of_fold_insert (y : A) (l acc : list A) :
  y ∈ fold_left (fun acc x => sort_insert less x acc) l acc ↔
  y ∈ l ∨ y ∈ acc.
Proof.
  revert acc. induction l as [|x l IH]; intros acc; simpl.
  - set_solver.
  - rewrite IH, elem_of_sort_insert. set_solver.
Qed.

Lemma elem_of_std_sort (y : A) (l : list A) :
  y ∈ std_sort less l ↔ y ∈ l.
Proof. unfold std_sort. rewrite elem_of_fold_insert. set_solver. Qed.

Lemma std_sort_nil_inv (l : list A) : std_sort less l = [] → l = [].
Proof.
  intros H. destruct l as [|x l]; [done|].
  assert (Hx : x ∈ std_sort less (x :: l)) by (apply elem_of_std_sort; set_solver).
  rewrite H in Hx. by apply not_elem_of_nil in Hx.
Qed.
End SortFacts.

Lemma elem_of_flat_map {A B : Type} (f : A → list B) (l : list A) (y : B) :
  y ∈ flat_map f l ↔ ∃ x, x ∈ l ∧ y ∈ f x.
Proof.
  rewrite list_elem_of_In, in_flat_map.
  split; intros (x & Hx & Hy); exists x; by rewrite ?list_elem_of_In in *.
Qed.

Lemma elem_of_source_findPackages (s : PackageSource) name req p :
  p ∈ source_findPackages s name req ↔
  p ∈ src_packages s ∧ pkg_name p = name ∧ satisfies req (pkg_version p) = true.
Proof.
  unfold source_findPackages.
  rewrite elem_of_std_sort, !list_elem_of_In, filter_In, andb_true_iff, String.eqb_eq.
  tauto.
Qed.

Lemma PackageDatabase_chain_ind (P : PackageDatabase → Prop) :
  (∀ srcs, P (mkDatabase srcs None)) →
  (∀ srcs d, P d → P (mkDatabase srcs (Some d))) →
  ∀ db, P db.
Proof.
  intros Hroot Hchild. fix IH 1. intros [srcs [d|]].
  - apply Hchild, IH.
  - apply Hroot.
Qed.

Lemma elem_of_findPackages (db : PackageDatabase) name req p :
  p ∈ findPackages db name req ↔
  p ∈ all_packages db ∧ pkg_name p = name ∧ satisfies req (pkg_version p) = true.
Proof.
  induction db as [srcs|srcs d IH] using PackageDatabase_chain_ind; simpl;
    rewrite !elem_of_app, !elem_of_flat_map;
    setoid_rewrite elem_of_source_findPackages.
  - rewrite elem_of_nil. naive_solver.
  - rewrite IH. naive_solver.
Qed.

Lemma satisfies_empty (v : Version) : satisfies [] v = true.
Proof. reflexivity. Qed.

Lemma findPackages_nil_iff (db : PackageDatabase) name req :
  findPackages db name req = [] ↔
  ∀ p, p ∈ all_packages db → pkg_name p = name →
       satisfies req (pkg_version p) = false.
Proof.
  split.
  - intros H p Hp Hn. destruct (satisfies req (pkg_version p)) eqn:Hs; [|done].
    assert (Hin : p ∈ findPackages db name req) by (by apply elem_of_findPackages).
    rewrite H in Hin. by apply not_elem_of_nil in Hin.
  - intros H. destruct (findPackages db name req) as [|p l] eqn:E; [done|].
    assert (Hin : p ∈ findPackages db name req) by (rewrite E; set_solver).
    apply elem_of_findPackages in Hin as (Hp & Hn & Hs).
    rewrite (H p Hp Hn) in Hs. discriminate.
Qed.

Lemma queryPackage_unfold (db : PackageDatabase) query req :
  query_requirement query = inr req →
  queryPackage db query =
  match std_sort package_less (findPackages db (query_name query) req) with
  | [] =>
      if negb (match findPackages db (query_name query) [] with
               | [] => true | _ => false end)
      then throw (no_package_other_versions query)
      else throw (no_package query)
  | first :: _ => ok first
  end.
Proof.
  unfold queryPackage, query_requirement, query_name. intros H.
  destruct (QString.indexOf query "@" =? -1); simpl in *.
  - injection H as <-. reflexivity.
  - unfold ok in H. rewrite H. reflexivity.
Qed.

(** C1, evaluated on the code: against a source holding [foo] at 1.0, 1.2
    and 2.0, the query [foo@>=1.0] has all three versions as candidates,
    2.0 being the highest, and [queryPackage] returns [foo] 1.0, the head
    of the ascending sort. *)
Theorem queryPackage_returns_lowest_candidate :
  queryPackage sample_db "foo@>=1.0" = inr foo_1_0 ∧
  findPackages sample_db "foo" [(OpGe, v1_0)] = [foo_1_0; foo_1_2; foo_2_0] ∧
  version_lt (pkg_version foo_1_0) (pkg_version foo_2_0) = true ∧
  queryPackage sample_db "foo@>=1.0" ≠ inr foo_2_0.
Proof. repeat split; [vm_compute; reflexivity .. | vm_compute; discriminate]. Qed.

(** C2: when the requirement of a query parses and no package of the queried
    name satisfies it, [queryPackage] throws; the exception is the "other
    versions are available" one, carrying the query, when some package has
    that name, and the plain "No package found" one when none has. *)
Theorem queryPackage_no_match (db : PackageDatabase) (query : string)
    (req : VersionRequirement) :
  query_requirement query = inr req →
  (∀ p, p ∈ all_packages db → pkg_name p = query_name query →
        satisfies req (pkg_version p) = false) →
  ((∃ p, p ∈ all_packages db ∧ pkg_name p = query_name query) →
   queryPackage db query = inl (no_package_other_versions query)) ∧
  ((∀ p, p ∈ all_packages db → pkg_name p ≠ query_name query) →
   queryPackage db query = inl (no_package query)).
Proof.
  intros Hreq Hnone. rewrite (queryPackage_unfold _ _ _ Hreq).
  apply findPackages_nil_iff in Hnone. rewrite Hnone. simpl.
  split.
  - intros (p & Hp & Hn).
    destruct (findPackages db (query_name query) []) as [|q l] eqn:E; [|done].
    exfalso. rewrite findPackages_nil_iff in E.
    specialize (E p Hp Hn). discriminate.
  - intros Hno.
    destruct (findPackages db (query_name query) []) as [|q l] eqn:E; [done|].
    exfalso.
    assert (Hin : q ∈ findPackages db (query_name query) []) by (rewrite E; set_solver).
    apply elem_of_findPackages in Hin as (Hq & Hn & _). by apply (Hno q).
Qed.

Lemma queryPackage_no_match_witness :
  queryPackage sample_db "foo@9.9.9" =
    inl (no_package_other_versions "foo@9.9.9") ∧
  queryPackage sample_db "baz@9.9.9" = inl (no_package "baz@9.9.9").
Proof.
  split.
  - refine (proj1 (queryPackage_no_match sample_db "foo@9.9.9"
                     [(OpEq, mkVersion [9%N; 9%N; 9%N] None)] _ _) _).
    + vm_compute; reflexivity.
    + intros p Hp Hn. vm_compute in Hp.
      repeat (apply elem_of_cons in Hp as [-> | Hp]; [try (vm_compute; reflexivity); vm_compute in Hn; discriminate|]).
      by apply not_elem_of_nil in Hp.
    + exists foo_1_0. split; [|reflexivity]. vm_compute. set_solver.
  - refine (proj2 (queryPackage_no_match sample_db "baz@9.9.9"
                     [(OpEq, mkVersion [9%N; 9%N; 9%N] None)] _ _) _).
    + vm_compute; reflexivity.
    + intros p Hp Hn. vm_compute in Hp.
      repeat (apply elem_of_cons in Hp as [-> | Hp]; [try (vm_compute; reflexivity); vm_compute in Hn; discriminate|]).
      by apply not_elem_of_nil in Hp.
    + intros p Hp. vm_compute in Hp.
      repeat (apply elem_of_cons in Hp as [-> | Hp]; [vm_compute; discriminate|]).
      by apply not_elem_of_nil in Hp.
Defined.

(** * The version order is a strict order *)

Lemma comp_nil (i : nat) : comp [] i = 0%N.
Proof. by destruct i. Qed.

Lemma forallb_zero_comp (b : list N) :
  forallb (N.eqb 0) b = true → ∀ i, comp b i = 0%N.
Proof.
  induction b as [|y b IH]; cbn [forallb]; intros H i; [apply comp_nil|].
  apply andb_true_iff in H as [Hy Hb]. apply N.eqb_eq in Hy. subst y.
  destruct i as [|i]; [done|]. by apply IH.
Qed.

Lemma first_nonzero (b : list N) :
  forallb (N.eqb 0) b = false → lex_lt [] b.
Proof.
  induction b as [|y b IH]; cbn [forallb]; [discriminate|].
  destruct (N.eqb_spec 0 y) as [<-|Hy]; cbn [andb].
  - intros H. destruct (IH H) as (i & Hi & Hbefore).
    exists (S i). split; [by rewrite comp_nil in *|].
    intros [|j] Hj; [done|]. rewrite comp_nil. symmetry.
    change (comp b j = 0%N). rewrite <- (Hbefore j) by lia. apply comp_nil.
  - intros _. exists 0%nat. split; [unfold comp; simpl; lia|]. lia.
Qed.

(** Both relations look at a sequence through [comp] only, so they pass to
    sequences with a further, equal, leading component. *)
Lemma lex_lt_shift (a b a' b' : list N) :
  (∀ i, comp a' (S i) = comp a i) →
  (∀ i, comp b' (S i) = comp b i) →
  comp a' 0 = comp b' 0 →
  lex_lt a b → lex_lt a' b'.
Proof.
  intros Ha Hb H0 (i & Hi & Hbefore). exists (S i). split.
  - by rewrite Ha, Hb.
  - intros [|j] Hj; [done|]. rewrite Ha, Hb. apply Hbefore. lia.
Qed.

Lemma lex_eq_shift (a b a' b' : list N) :
  (∀ i, comp a' (S i) = comp a i) →
  (∀ i, comp b' (S i) = comp b i) →
  comp a' 0 = comp b' 0 →
  lex_eq a b → lex_eq a' b'.
Proof.
  intros Ha Hb H0 H [|i]; [done|]. by rewrite Ha, Hb.
Qed.

(** [compare_components] decides the order of the specification. *)
Lemma compare_components_spec (a b : list N) :
  match compare_components a b with
  | Eq => lex_eq a b
  | Lt => lex_lt a b
  | Gt => lex_lt b a
  end.
Proof.
  revert b. induction a as [|x a IH]; intros b.
  - simpl. destruct (forallb (N.eqb 0) b) eqn:E.
    + intros i. by rewrite comp_nil, forallb_zero_comp.
    + by apply first_nonzero.
  - destruct b as [|y b]; simpl.
    + destruct (N.compare_spec x 0) as [->|Hlt|Hgt].
      * specialize (IH []).
        destruct (compare_components a []).
        -- eapply lex_eq_shift; [| |reflexivity|exact IH]; intros [|i]; done.
        -- eapply lex_lt_shift; [| |reflexivity|exact IH]; intros [|i]; done.
        -- eapply lex_lt_shift; [| |reflexivity|exact IH]; intros [|i]; done.
      * lia.
      * exists 0%nat. split; [unfold comp; simpl; lia|]. lia.
    + destruct (N.compare_spec x y) as [->|Hlt|Hgt].
      * specialize (IH b).
        destruct (compare_components a b).
        -- eapply lex_eq_shift; [| |reflexivity|exact IH]; done.
        -- eapply lex_lt_shift; [| |reflexivity|exact IH]; done.
        -- eapply lex_lt_shift; [| |reflexivity|exact IH]; done.
      * exists 0%nat. split; [done|]. lia.
      * exists 0%nat. split; [done|]. lia.
Qed.

Lemma lex_lt_irrefl (a : list N) : ¬ lex_lt a a.
Proof. intros (i & Hi & _). lia. Qed.

Lemma lex_lt_trans (a b c : list N) : lex_lt a b → lex_lt b c → lex_lt a c.
Proof.
  intros (i & Hi & Hbi) (j & Hj & Hbj).
  destruct (lt_eq_lt_dec i j) as [[Hlt|<-]|Hgt].
  - exists i. split; [rewrite <- (Hbj i) by done; done|].
    intros k Hk. rewrite (Hbi k) by done. apply Hbj. lia.
  - exists i. split; [lia|]. intros k Hk. by rewrite (Hbi k), (Hbj k).
  - exists j. split; [rewrite (Hbi j) by done; done|].
    intros k Hk. rewrite (Hbi k) by lia. by apply Hbj.
Qed.

Lemma lex_eq_lt (a b c : list N) : lex_eq a b → lex_lt b c → lex_lt a c.
Proof.
  intros Hab (i & Hi & Hb). exists i. split; [by rewrite Hab|].
  intros j Hj. rewrite Hab. by apply Hb.
Qed.

Lemma lex_lt_eq (a b c : list N) : lex_lt a b → lex_eq b c → lex_lt a c.
Proof.
  intros (i & Hi & Hb) Hbc. exists i. split; [by rewrite <- Hbc|].
  intros j Hj. rewrite <- Hbc. by apply Hb.
Qed.

Lemma lex_eq_not_lt (a b : list N) : lex_eq a b → ¬ lex_lt a b.
Proof. intros Hab (i & Hi & _). rewrite Hab in Hi. lia. Qed.

Lemma compare_components_Lt (a b : list N) :
  compare_components a b = Lt ↔ lex_lt a b.
Proof.
  pose proof (compare_components_spec a b) as H. split.
  - by intros E; rewrite E in H.
  - intros Hlt. destruct (compare_components a b); [|done|].
    + by apply lex_eq_not_lt in H.
    + destruct (lex_lt_irrefl a). by eapply lex_lt_trans.
Qed.

Lemma compare_components_Eq (a b : list N) :
  compare_components a b = Eq ↔ lex_eq a b.
Proof.
  pose proof (compare_components_spec a b) as H. split.
  - by intros E; rewrite E in H.
  - intros Heq. destruct (compare_components a b); [done| |].
    + by apply lex_eq_not_lt in Heq.
    + apply lex_eq_not_lt in H; [done|]. intros i. by rewrite Heq.
Qed.

Lemma ascii_compare_refl (c : ascii) : Ascii.compare c c = Eq.
Proof. apply N.compare_refl. Qed.

Lemma string_compare_lt_trans (s t u : string) :
  String.compare s t = Lt → String.compare t u = Lt → String.compare s u = Lt.
Proof.
  revert t u. induction s as [|c s IH]; intros [|d t] [|e u]; simpl; try done.
  unfold Ascii.compare.
  destruct (N.compare_spec (N_of_ascii c) (N_of_ascii d)) as [Hcd|Hcd|Hcd];
    destruct (N.compare_spec (N_of_ascii d) (N_of_ascii e)) as [Hde|Hde|Hde];
    try done; intros H1 H2.
  - rewrite Hcd, Hde, N.compare_refl. by eapply IH.
  - rewrite Hcd. by apply N.compare_lt_iff in Hde as ->.
  - rewrite <- Hde. by apply N.compare_lt_iff in Hcd as ->.
  - assert (N_of_ascii c < N_of_ascii e)%N as Hce by lia.
    by apply N.compare_lt_iff in Hce as ->.
Qed.

Lemma string_compare_irrefl (s : string) : String.compare s s ≠ Lt.
Proof.
  induction s as [|c s IH]; simpl; [done|]. by rewrite ascii_compare_refl.
Qed.

Lemma compare_prerelease_lt_trans (a b c : option string) :
  compare_prerelease a b = Lt → compare_prerelease b c = Lt →
  compare_prerelease a c = Lt.
Proof.
  destruct a as [s|], b as [t|], c as [u|]; simpl; try done.
  apply string_compare_lt_trans.
Qed.

(** [version_lt] written out: a lower component sequence, or an equal one
    with a lower prerelease tag. *)
Lemma version_lt_spec (a b : Version) :
  version_lt a b = true ↔
  lex_lt (components a) (components b) ∨
  (lex_eq (components a) (components b) ∧
   compare_prerelease (prerelease a) (prerelease b) = Lt).
Proof.
  unfold version_lt, version_compare.
  destruct (compare_components (components a) (components b)) eqn:E.
  - apply compare_components_Eq in E. split.
    + destruct (compare_prerelease _ _); try done. by right.
    + intros [Hlt|[_ ->]]; [|done]. by apply lex_eq_not_lt in E.
  - apply compare_components_Lt in E. split; [by left|done].
  - split; [done|]. intros [Hlt|[Heq _]].
    + apply compare_components_Lt in Hlt. congruence.
    + apply compare_components_Eq in Heq. congruence.
Qed.

Lemma version_lt_irrefl (a : Version) : version_lt a a = false.
Proof.
  destruct (version_lt a a) eqn:E; [|done].
  apply version_lt_spec in E as [Hlt|[_ Htag]].
  - by apply lex_lt_irrefl in Hlt.
  - destruct (prerelease a) as [s|]; simpl in Htag; [|done].
    by apply string_compare_irrefl in Htag.
Qed.

Lemma version_lt_trans (a b c : Version) :
  version_lt a b = true → version_lt b c = true → version_lt a c = true.
Proof.
  rewrite !version_lt_spec. intros [Hab|[Hab Tab]] [Hbc|[Hbc Tbc]].
  - left. by eapply lex_lt_trans.
  - left. by eapply lex_lt_eq.
  - left. by eapply lex_eq_lt.
  - right. split; [intros i; by rewrite Hab|].
    by eapply compare_prerelease_lt_trans.
Qed.

(** [std::sort] with a strict order puts a least element first. *)
Section SortedHead.
Context {A : Type} (less : A → A → bool).
Hypothesis less_irrefl : ∀ x, less x x = false.
Hypothesis less_trans : ∀ x y z, less x y = true → less y z = true → less x z = true.

Lemma sort_insert_ascending (x : A) (l : list A) :
  ascending less l → ascending less (sort_insert less x l).
Proof.
  induction l as [|y l IH]; simpl.
  - intros _. split; [|done]. intros y Hy. by apply not_elem_of_nil in Hy.
  - intros [Hy Hl]. destruct (less x y) eqn:Hxy; simpl.
    + split; [|done]. intros z Hz.
      destruct (less z x) eqn:Hzx; [|done].
      apply elem_of_cons in Hz as [->|Hz].
      * pose proof (less_trans _ _ _ Hxy Hzx) as Hc.
        by rewrite less_irrefl in Hc.
      * pose proof (less_trans _ _ _ Hzx Hxy) as Hc.
        by rewrite (Hy z Hz) in Hc.
    + split; [|by apply IH]. intros z Hz.
      apply elem_of_sort_insert in Hz as [->|Hz]; [done|by apply Hy].
Qed.

Lemma std_sort_ascending (l : list A) : ascending less (std_sort less l).
Proof.
  unfold std_sort.
  assert (H : ∀ acc, ascending less acc →
            ascending less (fold_left (fun acc x => sort_insert less x acc) l acc)).
  { induction l as [|x l IH]; intros acc Hacc; simpl; [done|].
    by apply IH, sort_insert_ascending. }
  by apply H.
Qed.

Lemma std_sort_head_least (l : list A) (first : A) (rest : list A) :
  std_sort less l = first :: rest →
  first ∈ l ∧ ∀ y, y ∈ l → less y first = false.
Proof.
  intros H. pose proof (std_sort_ascending l) as Hasc. rewrite H in Hasc.
  destruct Hasc as [Hfirst _]. split.
  - apply (elem_of_std_sort less). rewrite H. by left.
  - intros y Hy. apply (elem_of_std_sort less) in Hy. rewrite H in Hy.
    apply elem_of_cons in Hy as [->|Hy]; [apply less_irrefl|by apply Hfirst].
Qed.
End SortedHead.

(** X12: what [queryPackage] returns in general: one of the candidates that
    [findPackages] gives for the name and the requirement of the query, and
    one that no other candidate has a lower version than. *)
Lemma queryPackage_returns_least (db : PackageDatabase) (query : string)
    (req : VersionRequirement) (p : Package) :
  query_requirement query = inr req →
  queryPackage db query = inr p →
  p ∈ findPackages db (query_name query) req ∧
  ∀ c, c ∈ findPackages db (query_name query) req →
       version_lt (pkg_version c) (pkg_version p) = false.
Proof.
  intros Hreq. rewrite (queryPackage_unfold _ _ _ Hreq).
  destruct (std_sort package_less (findPackages db (query_name query) req))
    as [|first rest] eqn:E.
  - by destruct (negb _).
  - intros [= <-]. eapply (std_sort_head_least package_less); [| |exact E].
    + intros x. apply version_lt_irrefl.
    + intros x y z. apply version_lt_trans.
Qed.

(** * Properties of [State::installPackage] *)

Lemma collection_map_app_throw {A B : Type} (f : A → result B)
    (c1 : list A) (x : A) (c2 : list A) (e : exn) :
  (∀ y, y ∈ c1 → ∃ b, f y = inr b) →
  f x = inl e →
  collection_map f (c1 ++ x :: c2) = inl e.
Proof.
  intros Hok Hx. induction c1 as [|y c1 IH]; simpl.
  - by rewrite Hx.
  - destruct (Hok y) as [b ->]; [set_solver|].
    rewrite IH; [done|]. intros z Hz. apply Hok. set_solver.
Qed.

Lemma collection_each_app {A : Type} (f : A → World → result World)
    (c1 c2 : list A) (w w1 : World) :
  collection_each f c1 w = (w1, None) →
  collection_each f (c1 ++ c2) w = collection_each f c2 w1.
Proof.
  revert w. induction c1 as [|x c1 IH]; intros w; simpl.
  - by intros [= ->].
  - destruct (f x w) as [e|w']; [discriminate|]. apply IH.
Qed.

Lemma group_install_failure (group : string) (pkg : Package)
    (cfg : PackageConfiguration) (w : World) :
  install_failure (default w (match group_install group pkg cfg w with
                              | inr w' => Some w' | inl _ => None end)) =
  install_failure w.
Proof. unfold group_install. by destruct (install_failure w pkg). Qed.

Lemma collection_each_install_failure (group : string)
    (cfg : PackageConfiguration) (pkgs : list Package) (w : World) :
  install_failure (collection_each (fun pkg => group_install group pkg cfg) pkgs w).1
  = install_failure w.
Proof.
  revert w. induction pkgs as [|p pkgs IH]; intros w; simpl; [done|].
  pose proof (group_install_failure group p cfg w) as Hf.
  destruct (group_install group p cfg w) as [e|w']; simpl in *; [done|].
  by rewrite IH.
Qed.

(** C3, at a concrete invocation: [install nope bar] against a database
    that holds [bar] throws at [nope] and leaves [bar] uninstalled, so the
    queries after a failing one are not processed. *)
Lemma installPackage_abandons_remaining_packages :
  ¬ processes_all_packages sample_world install_nope_bar.
Proof.
  intros H.
  specialize (H sample_db "bar" bar_1_0 eq_refl).
  assert (Hin : "bar" ∈ Result_argumentMulti install_nope_bar "packages").
  { vm_compute. set_solver. }
  specialize (H Hin eq_refl eq_refl).
  vm_compute in H. discriminate.
Qed.

(** C3, as the code has it: the invocation ends at the first failure.  When
    a query fails to resolve, that exception escapes [installPackage] and
    the world is unchanged, since every query is resolved before the first
    install.  When the install of a package fails, that exception escapes
    and the world is the one left by the installs before it: no later
    package is processed. *)
Theorem installPackage_stops_at_first_failure (w : World) (r : Result)
    (db : PackageDatabase) :
  project_database w = inr db →
  (∀ qs1 q qs2 e,
     Result_argumentMulti r "packages" = qs1 ++ q :: qs2 →
     (∀ q', q' ∈ qs1 → ∃ p, queryPackage db q' = inr p) →
     queryPackage db q = inl e →
     installPackage w r = (w, Some e)) ∧
  (∀ pkgs1 pkg pkgs2 w1 e,
     collection_map (queryPackage db) (Result_argumentMulti r "packages")
       = inr (pkgs1 ++ pkg :: pkgs2) →
     collection_each
       (fun p => group_install (Result_value r "group") p
                   (PackageConfiguration_fromItems (Result_values r "config")))
       pkgs1 w = (w1, None) →
     install_failure w pkg = Some e →
     installPackage w r = (w1, Some e)).
Proof.
  intros Hdb. split.
  - intros qs1 q qs2 e Hargs Hok Hq. unfold installPackage.
    rewrite Hdb, Hargs, (collection_map_app_throw _ _ _ _ e Hok Hq). done.
  - intros pkgs1 pkg pkgs2 w1 e Hmap Heach Hfail. unfold installPackage.
    rewrite Hdb, Hmap, (collection_each_app _ _ _ _ _ Heach). simpl.
    unfold group_install at 1.
    pose proof (collection_each_install_failure (Result_value r "group")
      (PackageConfiguration_fromItems (Result_values r "config")) pkgs1 w) as Hf.
    rewrite Heach in Hf. simpl in Hf. rewrite Hf, Hfail. done.
Qed.

Lemma installPackage_stops_at_first_failure_witness :
  installPackage sample_world install_nope_bar
  = (sample_world, Some (no_package "nope")).
Proof.
  refine (proj1 (installPackage_stops_at_first_failure sample_world
                   install_nope_bar sample_db eq_refl) [] "nope" ["bar"] _ _ _ _).
  - vm_compute; reflexivity.
  - intros q' Hq'. by apply not_elem_of_nil in Hq'.
  - vm_compute; reflexivity.
Defined.

(** * Properties of [State::listSources] *)

(** Every source of a listed database has its line in the listing. *)
Lemma listing_has_every_source (now : Z) (type : string) (db : PackageDatabase)
    (s : PackageSource) :
  s ∈ db_sources db →
  SourceLine (src_name s) (typeString s) (lastUpdatedColor now s) (lastUpdated s)
    ∈ listing now type db.
Proof.
  intros Hs. unfold listing. apply elem_of_cons. right. apply elem_of_app. left.
  apply list_elem_of_fmap. by exists s.
Qed.

(** C8: [sources list] prints the listing of the project database followed
    by those of the user and system databases when the scope is [project],
    the listings of the user and system databases when it is [user], and
    the listing of the system database alone when it is [system]; in each
    case the databases named are the ones that can be opened. *)
Theorem listSources_scopes (w : World) (r : Result) :
  let now := currentDateTimeUtc w in
  (∀ project user system,
     Result_value r "database" = "project" →
     database_of_type w "project" = inr (Some project) →
     database_of_type w "user" = inr (Some user) →
     database_of_type w "system" = inr (Some system) →
     listSources w r =
     (listing now "project" project ++ [NewLine] ++
      listing now "user" user ++ [NewLine] ++
      listing now "system" system, None)) ∧
  (∀ user system,
     Result_value r "database" = "user" →
     database_of_type w "user" = inr (Some user) →
     database_of_type w "system" = inr (Some system) →
     listSources w r =
     (listing now "user" user ++ [NewLine] ++ listing now "system" system, None)) ∧
  (∀ system,
     Result_value r "database" = "system" →
     database_of_type w "system" = inr (Some system) →
     listSources w r = (listing now "system" system, None)).
Proof.
  intros now. unfold listSources, output.
  split; [|split].
  - intros project user system -> Hp Hu Hs. cbn -[listing].
    rewrite Hp. cbn -[listing]. rewrite Hu. cbn -[listing]. rewrite Hs.
    cbn -[listing]. by rewrite <- !app_assoc.
  - intros user system -> Hu Hs. cbn -[listing].
    rewrite Hu. cbn -[listing]. rewrite Hs. cbn -[listing].
    by rewrite <- !app_assoc.
  - intros system -> Hs. cbn -[listing]. rewrite Hs. reflexivity.
Qed.

Lemma listSources_scopes_witness :
  (listSources sample_world (sources_list "project")).1 =
    [Heading "project";
     SourceLine "origin" "git" Yellow 0;
     NewLine;
     Heading "user";
     SourceLine "home" "git" Yellow 0;
     NewLine;
     Heading "system";
     EmptyNotice] ∧
  (listSources sample_world (sources_list "user")).1 =
    [Heading "user"; SourceLine "home" "git" Yellow 0; NewLine;
     Heading "system"; EmptyNotice] ∧
  (listSources sample_world (sources_list "system")).1 =
    [Heading "system"; EmptyNotice].
Proof.
  split; [|split].
  - rewrite (proj1 (listSources_scopes sample_world (sources_list "project"))
               sample_db (mkDatabase [user_source] None) (mkDatabase [] None)
               eq_refl eq_refl eq_refl eq_refl).
    reflexivity.
  - rewrite (proj1 (proj2 (listSources_scopes sample_world (sources_list "user")))
               (mkDatabase [user_source] None) (mkDatabase [] None)
               eq_refl eq_refl eq_refl).
    reflexivity.
  - rewrite (proj2 (proj2 (listSources_scopes sample_world (sources_list "system")))
               (mkDatabase [] None) eq_refl eq_refl).
    reflexivity.
Defined.

(** * Properties of [Parser::process] *)

Lemma append_arguments_replicate (count : nat) (argv : list string)
    (list_ : list string) :
  append_arguments count argv list_ = list_ ++ replicate count (nth 0 argv "").
Proof.
  revert list_. induction count as [|n IH]; intros l; simpl.
  - by rewrite app_nil_r.
  - rewrite IH, <- app_assoc. reflexivity.
Qed.

(** C9: for a positive [argc], the list that the [argc]/[argv] overload
    hands to the string-list overload is [argc] copies of [argv[0]]; the
    outcome is that of parsing those copies, and it is the same for every
    argument vector with the same first entry. *)
Theorem process_argv_repeats_first_argument (handlers : Handlers)
    (parser : Command) (argc : Z) (argv : list string) :
  0 < argc →
  append_arguments (Z.to_nat argc) argv []
    = replicate (Z.to_nat argc) (nth 0 argv "") ∧
  process_argv handlers parser argc argv
    = process handlers parser (replicate (Z.to_nat argc) (nth 0 argv "")) ∧
  (∀ argv', nth 0 argv' "" = nth 0 argv "" →
     process_argv handlers parser argc argv'
     = process_argv handlers parser argc argv).
Proof.
  intros _. unfold process_argv. rewrite append_arguments_replicate. simpl.
  repeat split. intros argv' H. by rewrite append_arguments_replicate, H.
Qed.

Lemma process_argv_repeats_first_argument_witness :
  append_arguments 3 ["ralph"; "sources"; "list"] []
    = ["ralph"; "ralph"; "ralph"] ∧
  process_argv (ralph_handlers sample_world) ralph 3 ["ralph"; "install"; "foo"]
    = process_argv (ralph_handlers sample_world) ralph 3 ["ralph"; "sources"; "list"].
Proof.
  split.
  - exact (proj1 (process_argv_repeats_first_argument
                    (ralph_handlers sample_world) ralph 3
                    ["ralph"; "sources"; "list"] eq_refl)).
  - exact (proj2 (proj2 (process_argv_repeats_first_argument
                    (ralph_handlers sample_world) ralph 3
                    ["ralph"; "sources"; "list"] eq_refl))
             ["ralph"; "install"; "foo"] eq_refl).
Defined.

(** C4, at a concrete invocation: [install foo@9.9.9] while [foo] exists at
    other versions ends in the ordinary exception of [queryPackage], and
    [process] returns -1 for it, not 1. *)
Lemma process_returns_minus_one_for_resolve_failure :
  process_try (ralph_handlers sample_world) ralph ["ralph"; "install"; "foo@9.9.9"]
    = Throws (no_package_other_versions "foo@9.9.9") ∧
  process (ralph_handlers sample_world) ralph ["ralph"; "install"; "foo@9.9.9"]
    = Returns (-1) ∧
  ¬ exit_code_convention (ralph_handlers sample_world) ralph
      ["ralph"; "install"; "foo@9.9.9"].
Proof.
  assert (Htry : process_try (ralph_handlers sample_world) ralph
                   ["ralph"; "install"; "foo@9.9.9"]
                 = Throws (no_package_other_versions "foo@9.9.9"))
    by (vm_compute; reflexivity).
  split; [exact Htry|]. split.
  - unfold process. rewrite Htry. reflexivity.
  - intros [H _]. specialize (H _ Htry). unfold process in H.
    rewrite Htry in H. discriminate.
Qed.

(** C4, as the code has it: [process] returns 0 when parsing and handling
    complete, and -1 when they end in an ordinary [Exception], in a
    [GitException] or in a [BuildException]; it never returns 1. *)
Theorem process_exit_codes (handlers : Handlers) (parser : Command)
    (arguments : list string) :
  (process_try handlers parser arguments = Returns 0 →
   process handlers parser arguments = Returns 0) ∧
  (∀ m, process_try handlers parser arguments = Throws (Exception m) →
        process handlers parser arguments = Returns (-1)) ∧
  (∀ m code, process_try handlers parser arguments = Throws (GitException m code) →
        process handlers parser arguments = Returns (-1)) ∧
  (∀ m chain,
     process_try handlers parser arguments
       = Throws (CommandLineException Build m chain) →
     process handlers parser arguments = Returns (-1)) ∧
  (∀ c, process handlers parser arguments = Returns c → c = 0 ∨ c = -1).
Proof.
  unfold process. repeat split.
  - by intros ->.
  - by intros m ->.
  - by intros m code ->.
  - by intros m chain ->.
  - intros c.
    assert (Htry : ∀ c', process_try handlers parser arguments = Returns c' → c' = 0).
    { unfold process_try, printHelp. intros c'.
      destruct (parse parser arguments) as [e|r]; [discriminate|].
      destruct (handle handlers parser r); try discriminate.
      destruct (_ && _); [discriminate|]. by intros [= <-]. }
    destruct (process_try handlers parser arguments) as [c'|e|code] eqn:E.
    + intros [= <-]. left. by apply Htry.
    + destruct e as [m|[] m chain|m code]; unfold printHelp;
        try discriminate; intros [= <-]; by right.
    + discriminate.
Qed.

Lemma process_exit_codes_witness :
  process (ralph_handlers sample_world) ralph ["ralph"; "sources"; "list"]
    = Returns 0 ∧
  process (ralph_handlers sample_world) ralph ["ralph"; "install"; "foo@9.9.9"]
    = Returns (-1).
Proof.
  split.
  - apply (proj1 (process_exit_codes (ralph_handlers sample_world) ralph
                    ["ralph"; "sources"; "list"])).
    vm_compute; reflexivity.
  - apply (proj1 (proj2 (process_exit_codes (ralph_handlers sample_world) ralph
                    ["ralph"; "install"; "foo@9.9.9"]))
             "No package found for foo@9.9.9, but other versions are available").
    vm_compute; reflexivity.
Defined.

(** * Properties of [Parser::parse] *)

Lemma register_option_lookup (table : gmap string Option) (o : Option)
    (name : string) (opt : Option) :
  register_option table o !! name = Some opt →
  (opt = o ∧ name ∈ names o) ∨ table !! name = Some opt.
Proof.
  unfold register_option. generalize (names o) as ns. intros ns.
  revert table. induction ns as [|n ns IH]; intros table; simpl; [by right|].
  intros H. apply IH in H as [[-> Hin]|H].
  - left. split; [done|]. by right.
  - destruct (decide (n = name)) as [->|Hne].
    + rewrite lookup_insert_eq in H. injection H as <-. left. split; [done|]. by left.
    + rewrite lookup_insert_ne in H by done. by right.
Qed.

Lemma register_options_lookup (table : gmap string Option) (os : list Option)
    (name : string) (opt : Option) :
  register_options table os !! name = Some opt →
  (opt ∈ os ∧ name ∈ names opt) ∨ table !! name = Some opt.
Proof.
  unfold register_options. revert table.
  induction os as [|o os IH]; intros table; simpl; [by right|].
  intros H. apply IH in H as [[Hin Hn]|H].
  - left. split; [by right|done].
  - apply register_option_lookup in H as [[-> Hn]|H]; [|by right].
    left. split; [by left|done].
Qed.

Lemma nextCommand_inv (root : Command) (st st' : ParseState) (command : Command) :
  reachable root command →
  table_ok root (known_options st) →
  keys_ok root (ps_options st) →
  nextCommand st command = inr st' →
  parse_inv root st'.
Proof.
  intros Hreach Htab Hkeys. unfold nextCommand, bind.
  destruct (checkPositionals _); [discriminate|]. intros [= <-].
  split; [done|]. split; [|done]. simpl.
  intros name opt H. apply register_options_lookup in H as [[Hin Hn]|H].
  - split; [done|]. by exists command.
  - by apply Htab.
Qed.

Lemma resolveAlias_inv (root : Command) (path : list string) (st st' : ParseState) :
  parse_inv root st → resolveAlias st path = inr st' → parse_inv root st'.
Proof.
  revert st. induction path as [|cmd path IH]; intros st Hinv; simpl.
  - by intros [= <-].
  - unfold bind.
    destruct (nextCommand st (subcommand (currentCommand st) cmd)) as [e|st1] eqn:E;
      [discriminate|].
    destruct Hinv as (Hr & Ht & Hk).
    apply IH. eapply nextCommand_inv; [|done|done|exact E].
    by apply reachable_sub.
Qed.

Lemma set_option_inv (root : Command) (st : ParseState) (name : string)
    (opt : Option) (value : string) :
  parse_inv root st →
  known_options st !! name = Some opt →
  parse_inv root (set_option st (first_name opt) value).
Proof.
  intros (Hr & Ht & Hk) Hopt. split; [done|]. split; [done|]. simpl.
  intros key v. destruct (decide (first_name opt = key)) as [<-|Hne].
  - intros _. exists opt. destruct (Ht _ _ Hopt) as [Hin Hd].
    split; [done|]. split; [|done]. intros Hnil. rewrite Hnil in Hin.
    by apply not_elem_of_nil in Hin.
  - rewrite lookup_insert_ne by done. apply Hk.
Qed.

(** [handleOption] stores the value under the first name of the option that
    the typed name denotes. *)
Lemma handleOption_stores_under_first_name (st st' : ParseState)
    (name value : string) (hasValue : bool) (it : option (string * list string))
    (consumed : bool) (opt : Option) :
  known_options st !! name = Some opt →
  handleOption st name value hasValue it = inr (st', consumed) →
  ∃ stored,
    st' = set_option st (first_name opt) stored ∧
    ps_options st' !! first_name opt = Some stored ∧
    (if consumed
     then ∃ previous rest, it = Some (previous, stored :: rest)
     else stored = value).
Proof.
  intros Hopt. unfold handleOption, cl_throw, throw, ok. rewrite Hopt.
  destruct (hasValue && negb (hasArgument opt)); [discriminate|].
  destruct (negb hasValue && hasArgument opt && isArgumentRequired opt).
  - destruct it as [[previous [|next rest]]|]; try discriminate.
    destruct (negb (QString.startsWith next "-")); [|discriminate].
    intros [= <- <-]. exists next. split; [done|]. split.
    + simpl. apply lookup_insert_eq.
    + by exists previous, rest.
  - intros [= <- <-]. exists value. split; [done|]. split; [|done].
    simpl. apply lookup_insert_eq.
Qed.

Lemma handleOption_inv (root : Command) (st st' : ParseState)
    (name value : string) (hasValue : bool) (it : option (string * list string))
    (consumed : bool) :
  parse_inv root st →
  handleOption st name value hasValue it = inr (st', consumed) →
  parse_inv root st'.
Proof.
  intros Hinv H.
  destruct (known_options st !! name) as [opt|] eqn:Hopt.
  - destruct (handleOption_stores_under_first_name _ _ _ _ _ _ _ _ Hopt H)
      as (stored & -> & _). by eapply set_option_inv.
  - unfold handleOption in H. rewrite Hopt in H. discriminate.
Qed.

Lemma handle_each_char_inv (root : Command) (items : string) (st st' : ParseState) :
  parse_inv root st → handle_each_char st items = inr st' → parse_inv root st'.
Proof.
  revert st. induction items as [|c items IH]; intros st Hinv; simpl.
  - by intros [= <-].
  - destruct (handleOption st (String c "") "" false None) as [e|[st1 b]] eqn:E;
      [discriminate|].
    apply IH. by eapply handleOption_inv.
Qed.

Lemma handleArguments_inv (root : Command) (st st' : ParseState)
    (args : list string) :
  parse_inv root st → handleArguments st args = inr st' → parse_inv root st'.
Proof.
  intros Hinv. unfold handleArguments, cl_throw, throw, ok.
  destruct (_ && _); [discriminate|]. by intros [= <-].
Qed.

Lemma parse_items_inv (root : Command) (items : list string) :
  ∀ st st', parse_inv root st → parse_items st items = inr st' → parse_inv root st'.
Proof.
  remember (length items) as n eqn:Hn.
  revert items Hn. induction (lt_wf n) as [n _ IH]. intros items Hn st st' Hinv.
  destruct items as [|item rest]; simpl; [by intros [= <-]|].
  assert (Hrest : ∀ st1 st2, parse_inv root st1 →
                             parse_items st1 rest = inr st2 → parse_inv root st2).
  { apply (IH (length rest)); [subst n; simpl; lia | done]. }
  assert (Hcont : ∀ r,
     (∀ st1 b, r = inr (st1, b) → parse_inv root st1) →
     match r with
     | inl e => inl e
     | inr (st1, false) => parse_items st1 rest
     | inr (st1, true) =>
         match rest with [] => ok st1 | _ :: rest' => parse_items st1 rest' end
     end = inr st' → parse_inv root st').
  { intros [e|[st1 [|]]] Hr; [discriminate| |].
    - destruct rest as [|x rest'].
      + intros [= <-]. by eapply Hr.
      + apply (IH (length rest')); [subst n; simpl; lia | done | by eapply Hr].
    - apply Hrest. by eapply Hr. }
  destruct (negb (haveStartedPositionals st) &&
            contains_key item (cmd_subcommands (currentCommand st))).
  { destruct (nextCommand st _) as [e|st1] eqn:E; [discriminate|].
    apply Hrest. destruct Hinv as (Hr & Ht & Hk).
    eapply nextCommand_inv; [|done|done|exact E]. by apply reachable_sub. }
  destruct (negb (haveStartedPositionals st) &&
            contains_key item (cmd_commandAliases (currentCommand st))).
  { destruct (resolveAlias st _) as [e|st1] eqn:E; [discriminate|].
    apply Hrest. by eapply resolveAlias_inv. }
  destruct (String.eqb item "--").
  { by apply handleArguments_inv. }
  destruct (QString.startsWith item "--").
  { destruct (doubleOptionExpression item) as [[[name value] hasValue]|];
      [|discriminate].
    apply Hcont. intros st1 b H. by eapply handleOption_inv. }
  destruct (QString.startsWith item "-").
  { destruct (singleOptionExpression item) as [[[names_ value] hasValue]|];
      [|discriminate].
    destruct (handle_each_char st _) as [e|st1] eqn:E; [discriminate|].
    apply Hcont. intros st2 b H.
    eapply handleOption_inv; [|exact H]. by eapply handle_each_char_inv. }
  destruct (handleArguments st [item]) as [e|st1] eqn:E; [discriminate|].
  apply Hrest. by eapply handleArguments_inv.
Qed.

Lemma fill_default_keeps (opts : gmap string string) (opt : Option)
    (key value : string) :
  opts !! key = Some value → fill_default opts opt !! key = Some value.
Proof.
  intros H. unfold fill_default.
  destruct (opts !! first_name opt) eqn:E; [done|].
  destruct (defaultValue opt); [|done]. destruct (hasArgument opt); [|done].
  rewrite lookup_insert_ne; [done|]. intros <-. congruence.
Qed.

Lemma fold_fill_default_keeps (l : list Option) (opts : gmap string string)
    (key value : string) :
  opts !! key = Some value → fold_left fill_default l opts !! key = Some value.
Proof.
  revert opts. induction l as [|o l IH]; intros opts H; simpl; [done|].
  by apply IH, fill_default_keeps.
Qed.

Lemma fold_fill_default_sets (l : list Option) (opts : gmap string string)
    (opt : Option) (d : string) :
  opt ∈ l → hasArgument opt = true → defaultValue opt = Some d →
  is_Some (fold_left fill_default l opts !! first_name opt).
Proof.
  intros Hin Harg Hdef. revert opts.
  induction l as [|o l IH]; intros opts; [by apply not_elem_of_nil in Hin|].
  apply elem_of_cons in Hin as [<-|Hin]; simpl; [|by apply IH].
  assert (is_Some (fill_default opts opt !! first_name opt)) as [v Hv].
  { unfold fill_default. destruct (opts !! first_name opt) eqn:E.
    - rewrite E. by eexists.
    - rewrite Hdef, Harg, lookup_insert_eq. by eexists. }
  exists v. by apply fold_fill_default_keeps.
Qed.

Lemma fold_fill_default_keys (root : Command) (l : list Option)
    (opts : gmap string string) :
  (∀ opt, opt ∈ l → declared root opt ∧ names opt ≠ []) →
  keys_ok root opts → keys_ok root (fold_left fill_default l opts).
Proof.
  revert opts. induction l as [|o l IH]; intros opts Hl Hk; simpl; [done|].
  apply IH; [intros opt Hopt; apply Hl; by right|].
  unfold fill_default.
  destruct (opts !! first_name o) eqn:E; [done|].
  destruct (defaultValue o); [|done]. destruct (hasArgument o); [|done].
  intros key value. destruct (decide (first_name o = key)) as [<-|Hne].
  - intros _. exists o. destruct (Hl o) as [Hd Hn]; [by left|]. done.
  - rewrite lookup_insert_ne by done. apply Hk.
Qed.

Lemma parse_state (parser : Command) (arguments : list string) (r : Result) :
  parse parser arguments = inr r →
  ∃ st, parse_inv parser st ∧
        r = mkResult (fill_defaults (known_options st) (ps_options st))
              (ps_arguments st) (ps_commandChain st) (known_options st)
              (positionals st).
Proof.
  unfold parse, bind.
  destruct (nextCommand initial_state parser) as [e|st0] eqn:E0; [discriminate|].
  destruct (parse_items st0 (tail arguments)) as [e|st] eqn:E; [discriminate|].
  intros [= <-]. exists st. split; [|done].
  eapply parse_items_inv; [|exact E].
  eapply nextCommand_inv; [apply reachable_root| | |exact E0].
  - intros name opt H. simpl in H. by rewrite lookup_empty in H.
  - intros key value H. simpl in H. by rewrite lookup_empty in H.
Qed.

(** C10: [handleOption] stores the value under [names().first()] of the
    option that the typed name denotes, whichever of its names was typed;
    and in the [Result] of a successful [parse], every stored option value
    is keyed by the first name of an option declared by the parser or one
    of its subcommands, and every known option that takes an argument and
    has a default has a value under its first name. *)
Theorem parse_keys_options_by_first_name :
  (∀ st st' name value hasValue it consumed opt,
     known_options st !! name = Some opt →
     handleOption st name value hasValue it = inr (st', consumed) →
     ∃ stored, ps_options st' = <[first_name opt := stored]> (ps_options st) ∧
               (consumed = false → stored = value)) ∧
  (∀ parser arguments r,
     parse parser arguments = inr r →
     (∀ key value, res_options r !! key = Some value →
        ∃ opt, declared parser opt ∧ names opt ≠ [] ∧ key = first_name opt) ∧
     (∀ name opt d,
        res_possibleOptions r !! name = Some opt →
        hasArgument opt = true → defaultValue opt = Some d →
        is_Some (res_options r !! first_name opt)) ∧
     (∀ name opt, res_possibleOptions r !! name = Some opt →
        name ∈ names opt ∧ declared parser opt)).
Proof.
  split.
  - intros st st' name value hasValue it consumed opt Hopt H.
    destruct (handleOption_stores_under_first_name _ _ _ _ _ _ _ _ Hopt H)
      as (stored & -> & _ & Hc).
    exists stored. split; [done|]. by intros ->.
  - intros parser arguments r Hparse.
    destruct (parse_state _ _ _ Hparse) as (st & (Hr & Ht & Hk) & ->). simpl.
    assert (Hvals : ∀ opt, opt ∈ (map_to_list (known_options st)).*2 →
                           ∃ name, known_options st !! name = Some opt).
    { intros opt Hin. apply list_elem_of_fmap in Hin as ([name o] & -> & Hin).
      exists name. by apply elem_of_map_to_list. }
    split; [|split].
    + apply fold_fill_default_keys; [|done].
      intros opt Hin. destruct (Hvals _ Hin) as [name Hname].
      destruct (Ht _ _ Hname) as [Hn Hd]. split; [done|].
      intros Hnil. rewrite Hnil in Hn. by apply not_elem_of_nil in Hn.
    + intros name opt d Hname Harg Hdef.
      apply (fold_fill_default_sets _ _ opt d); [|done|done].
      apply list_elem_of_fmap. exists (name, opt). split; [done|].
      by apply elem_of_map_to_list.
    + apply Ht.
Qed.

Lemma parse_keys_options_by_first_name_witness :
  parse ralph ["ralph"; "sources"; "list"; "--d=user"]
    = inr (mkResult {[ "database" := "user" ]} ∅ ["ralph"; "sources"; "list"]
             (register_options ∅ [opt_version; opt_database]) []) ∧
  ∃ opt, declared ralph opt ∧ names opt ≠ [] ∧ "database" = first_name opt.
Proof.
  assert (Hparse :
    parse ralph ["ralph"; "sources"; "list"; "--d=user"]
    = inr (mkResult {[ "database" := "user" ]} ∅ ["ralph"; "sources"; "list"]
             (register_options ∅ [opt_version; opt_database]) []))
    by (vm_compute; reflexivity).
  split; [exact Hparse|].
  apply (proj1 (proj2 parse_keys_options_by_first_name _ _ _ Hparse)
           "database" "user").
  vm_compute; reflexivity.
Defined.

(** * Properties of the delegating reports *)

Lemma same_links_refl (s : Store) : same_links s s.
Proof. by intros x. Qed.

Lemma same_links_trans (s1 s2 s3 : Store) :
  same_links s1 s2 → same_links s2 s3 → same_links s1 s3.
Proof. intros H1 H2 x. by rewrite H1. Qed.

Lemma same_links_alter (s : Store) (x : nat) (r : Report) :
  same_links s (alter (fun d => receive d r) x s).
Proof.
  intros y. rewrite lookup_alter. case_decide as E; [|done].
  subst y. destruct (s !! x) as [d|]; [|done]. by destruct r.
Qed.

Lemma chain_same_links (s s' : Store) (p : nat) (ch : list nat) :
  chain s p ch → same_links s s' → chain s' p ch.
Proof.
  intros Hch Hl. induction Hch as [p d Hp Hd|p q d ch Hp Hd _ IH].
  - specialize (Hl p). rewrite Hp in Hl. simpl in Hl.
    destruct (s' !! p) as [d'|] eqn:E; [|done].
    apply (chain_end _ _ d'); [done|]. simpl in Hl. congruence.
  - specialize (Hl p). rewrite Hp in Hl. simpl in Hl.
    destruct (s' !! p) as [d'|] eqn:E; [|done].
    apply (chain_step _ _ q d'); [done| |done]. simpl in Hl. congruence.
Qed.

Lemma chain_functional (s : Store) (p : nat) (c1 c2 : list nat) :
  chain s p c1 → chain s p c2 → c1 = c2.
Proof.
  intros H1. revert c2.
  induction H1 as [p d Hp Hd|p q d ch Hp Hd _ IH]; intros c2 H2;
    inversion H2; simplify_eq; [done|].
  f_equal. by apply IH.
Qed.

Lemma chain_from_member (s : Store) (p x : nat) (ch : list nat) :
  chain s p ch → x ∈ ch →
  ∃ ch', chain s x ch' ∧ (length ch' ≤ length ch)%nat.
Proof.
  intros Hch. induction Hch as [p d Hp Hd|p q d ch Hp Hd Hq IH]; intros Hx.
  - apply list_elem_of_singleton in Hx as ->. exists [p]. split; [|done].
    by apply (chain_end _ _ d).
  - apply elem_of_cons in Hx as [->|Hx].
    + exists (p :: ch). split; [|done]. by apply (chain_step _ _ q d).
    + destruct (IH Hx) as (ch' & Hch' & Hlen). exists ch'. split; [done|].
      simpl. lia.
Qed.

(** A delegation chain that ends visits no promise twice. *)
Lemma chain_NoDup (s : Store) (p : nat) (ch : list nat) :
  chain s p ch → NoDup ch.
Proof.
  intros Hch. induction Hch as [p d Hp Hd|p q d ch Hp Hd Hq IH].
  - apply NoDup_singleton.
  - apply NoDup_cons. split; [|done]. intros Hin.
    destruct (chain_from_member _ _ _ _ Hq Hin) as (ch' & Hch' & Hlen).
    assert (ch' = p :: ch) as ->
      by (eapply chain_functional; [done|by apply (chain_step _ _ q d)]).
    simpl in Hlen. lia.
Qed.

Lemma chain_head (s : Store) (p : nat) (ch : list nat) :
  chain s p ch → ∃ ch', ch = p :: ch'.
Proof. intros [p' d Hp Hd|p' q d ch' Hp Hd Hq]; by eexists. Qed.

Lemma receive_along_notin (ch : list nat) (r : Report) (s : Store) (x : nat) :
  x ∉ ch → receive_along ch r s !! x = s !! x.
Proof.
  unfold receive_along. revert s.
  induction ch as [|y ch IH]; intros s Hx; simpl; [done|].
  rewrite IH by set_solver. rewrite lookup_alter_ne; [done|set_solver].
Qed.

Lemma receive_along_in (ch : list nat) (r : Report) (s : Store) (x : nat) :
  NoDup ch → x ∈ ch →
  receive_along ch r s !! x = (fun d => receive d r) <$> (s !! x).
Proof.
  unfold receive_along. revert s.
  induction ch as [|y ch IH]; intros s Hnd Hx; simpl;
    [by apply not_elem_of_nil in Hx|].
  apply NoDup_cons in Hnd as [Hy Hnd].
  apply elem_of_cons in Hx as [->|Hx].
  - fold (receive_along ch r (alter (fun d => receive d r) y s)).
    rewrite receive_along_notin by done. by rewrite lookup_alter_eq.
  - rewrite IH by done. rewrite lookup_alter_ne; [done|]. by intros ->.
Qed.

Lemma insert_as_alter (s : Store) (p : nat) (d : BaseFutureData)
    (f : BaseFutureData → BaseFutureData) :
  s !! p = Some d → <[p := f d]> s = alter f p s.
Proof.
  intros Hp. apply map_eq. intros x. rewrite lookup_alter.
  case_decide as E.
  - subst x. by rewrite lookup_insert_eq, Hp.
  - by rewrite lookup_insert_ne.
Qed.

(** With fuel for the whole chain, a report returns, and the store it
    returns is the one where every promise of the chain has received it. *)
Lemma send_along (fuel : nat) (r : Report) (ch : list nat) :
  ∀ (s : Store) (p : nat),
    chain s p ch → (length ch ≤ fuel)%nat →
    send fuel p r s = Some (receive_along ch r s).
Proof.
  revert fuel. induction ch as [|x ch IH]; intros fuel s p Hch Hlen;
    [inversion Hch|].
  destruct fuel as [|fuel]; [simpl in Hlen; lia|].
  assert (x = p) as -> by (by inversion Hch).
  inversion Hch as [p' d Hp Hd|p' q d ch' Hp Hd Hq]; subst p'; try subst ch'.
  - subst ch. unfold receive_along. simpl.
    destruct r as [current total|message|e]; simpl; rewrite Hp, Hd; f_equal.
    + apply (insert_as_alter s p d (fun d => receive d (Progress current total)) Hp).
    + apply (insert_as_alter s p d (fun d => receive d (Status message)) Hp).
    + apply (insert_as_alter s p d (fun d => receive d (Failure e)) Hp).
  - assert (Hq' : chain (alter (fun d => receive d r) p s) q ch)
      by (eapply chain_same_links; [exact Hq|apply same_links_alter]).
    assert (Hfuel : (length ch ≤ fuel)%nat) by (simpl in Hlen; lia).
    specialize (IH fuel _ _ Hq' Hfuel).
    unfold receive_along. simpl.
    fold (receive_along ch r (alter (fun d => receive d r) p s)).
    rewrite <- IH.
    destruct r as [current total|message|e]; simpl; rewrite Hp, Hd; f_equal.
    + apply (insert_as_alter s p d (fun d => receive d (Progress current total)) Hp).
    + apply (insert_as_alter s p d (fun d => receive d (Status message)) Hp).
    + apply (insert_as_alter s p d (fun d => receive d (Failure e)) Hp).
Qed.

Lemma same_links_receive_along (ch : list nat) (r : Report) (s : Store) :
  same_links s (receive_along ch r s).
Proof.
  unfold receive_along. revert s. induction ch as [|x ch IH]; intros s; simpl.
  - apply same_links_refl.
  - eapply same_links_trans; [apply same_links_alter|apply IH].
Qed.

Lemma send_all_along (fuel : nat) (rs : list Report) (ch : list nat) :
  ∀ (s : Store) (p : nat),
    chain s p ch → (length ch ≤ fuel)%nat →
    send_all fuel p rs s
    = Some (fold_left (fun s r => receive_along ch r s) rs s).
Proof.
  induction rs as [|r rs IH]; intros s p Hch Hlen; simpl; [done|].
  rewrite (send_along fuel r ch s p Hch Hlen). apply IH; [|done].
  eapply chain_same_links; [exact Hch|apply same_links_receive_along].
Qed.

Lemma lookup_receive_all (ch : list nat) (rs : list Report) (x : nat) :
  NoDup ch → x ∈ ch →
  ∀ s : Store,
    fold_left (fun s r => receive_along ch r s) rs s !! x
    = (fun d => fold_left receive rs d) <$> (s !! x).
Proof.
  intros Hnd Hx. induction rs as [|r rs IH]; intros s; simpl.
  - by destruct (s !! x).
  - rewrite IH, receive_along_in by done. by destruct (s !! x).
Qed.

Lemma emitted_receive_all (rs : list Report) (d : BaseFutureData) :
  emitted (fold_left receive rs d) = emitted d ++ map signal_of rs.
Proof.
  revert d. induction rs as [|r rs IH]; intros d; simpl.
  - by rewrite app_nil_r.
  - rewrite IH. destruct r; simpl; by rewrite <- app_assoc.
Qed.

(** C5: for a promise [inner] whose data delegates to [outer], and with
    fuel for the chain above it, a sequence of progress reports, status
    strings and failures sent on [inner] returns, and leaves the data of
    [outer] as if the same reports had been sent on it, in the same order:
    the same fields are set and the same signals reach its watchers. *)
Theorem delegated_reports_reach_target (s : Store) (inner outer : nat)
    (d_in d_out : BaseFutureData) (ch : list nat) (fuel : nat)
    (rs : list Report) :
  s !! inner = Some d_in →
  delegateTo d_in = Some outer →
  s !! outer = Some d_out →
  chain s outer ch →
  (length ch < fuel)%nat →
  ∃ s', send_all fuel inner rs s = Some s' ∧
        s' !! inner = Some (fold_left receive rs d_in) ∧
        s' !! outer = Some (fold_left receive rs d_out) ∧
        emitted (fold_left receive rs d_in) = emitted d_in ++ map signal_of rs ∧
        emitted (fold_left receive rs d_out) = emitted d_out ++ map signal_of rs.
Proof.
  intros Hin Hd Hout Hch Hfuel.
  assert (Hfull : chain s inner (inner :: ch)) by (by apply (chain_step _ _ outer d_in)).
  pose proof (chain_NoDup _ _ _ Hfull) as Hnd.
  destruct (chain_head _ _ _ Hch) as [ch' ->].
  eexists. split; [apply (send_all_along fuel rs _ _ _ Hfull); simpl in *; lia|].
  rewrite !lookup_receive_all, Hin, Hout by (done || set_solver).
  rewrite !emitted_receive_all. done.
Qed.

Lemma delegated_reports_reach_target_witness :
  ∃ s', send_all 2 1
          [Status "Fetching..."; Progress 1 10; Progress 10 10;
           Failure (GitException "connection reset" (-1))] pull_store = Some s' ∧
        emitted <$> (s' !! 0%nat)
        = Some [sig_status "Fetching..."; sig_progress 1 10; sig_progress 10 10;
                sig_exception] ∧
        exception <$> (s' !! 0%nat)
        = Some (Some (GitException "connection reset" (-1))).
Proof.
  destruct (delegated_reports_reach_target pull_store 1 0
              (fresh_data (Some 0%nat)) (fresh_data None) [0%nat] 2
              [Status "Fetching..."; Progress 1 10; Progress 10 10;
               Failure (GitException "connection reset" (-1))])
    as (s' & Hsend & _ & Hout & _ & Hem).
  - reflexivity.
  - reflexivity.
  - reflexivity.
  - apply (chain_end _ _ (fresh_data None)); reflexivity.
  - simpl. lia.
  - exists s'. split; [exact Hsend|]. rewrite Hout. simpl. split; reflexivity.
Defined.

(** * Properties of [GitRepo::credentialsCallback] *)

(** C7: the answer of the broker reaches libgit2 in one of three ways.  A
    response with credential material puts it into [*out] and returns 0; an
    invalid response returns 1 and leaves [*out] alone; an error response
    returns [GIT_EUSER], which is negative, and leaves [*out] alone. *)
Theorem credentialsCallback_propagates
    (m_credentialsFunc : GitCredentialQuery → GitCredentialResponse)
    (out : option git_cred) (url usernameFromUrl : string) (allowedTypes : Z) :
  let response :=
    m_credentialsFunc (credentials_query url usernameFromUrl allowedTypes) in
  let answer :=
    credentialsCallback m_credentialsFunc out url usernameFromUrl allowedTypes in
  (∀ cred, response = GitCredentialResponse_of (Some cred) →
           answer = (0, Some cred)) ∧
  (response = createInvalid → answer = (1, out) ∧ 0 < answer.1) ∧
  (response = createError → answer = (GIT_EUSER, out) ∧ answer.1 < 0) ∧
  (answer.1 = 0 ∨ answer.1 = 1 ∨ answer.1 = GIT_EUSER).
Proof.
  intros response answer. subst response answer. unfold credentialsCallback.
  split; [|split; [|split]].
  - by intros cred ->.
  - by intros ->.
  - by intros ->.
  - destruct (m_credentialsFunc _) as [[cred|] [|]]; simpl; auto.
Qed.

Lemma credentialsCallback_propagates_witness :
  credentialsCallback (State_credentials "alice" "secret" 0) None
    "https://example/repo.git" "git" GIT_CREDTYPE_USERPASS_PLAINTEXT
  = (0, Some (cred_userpass_plaintext "alice" "secret")) ∧
  credentialsCallback (State_credentials "alice" "secret" 0) None
    "https://example/repo.git" "git" GIT_CREDTYPE_SSH_KEY
  = (1, None) ∧
  credentialsCallback (State_credentials "alice" "secret" (-1)) None
    "https://example/repo.git" "git" GIT_CREDTYPE_USERPASS_PLAINTEXT
  = (GIT_EUSER, None).
Proof.
  split; [|split].
  - apply (proj1 (credentialsCallback_propagates
                    (State_credentials "alice" "secret" 0) None
                    "https://example/repo.git" "git"
                    GIT_CREDTYPE_USERPASS_PLAINTEXT)).
    reflexivity.
  - apply (proj1 (proj2 (credentialsCallback_propagates
                    (State_credentials "alice" "secret" 0) None
                    "https://example/repo.git" "git" GIT_CREDTYPE_SSH_KEY))).
    reflexivity.
  - apply (proj1 (proj2 (proj2 (credentialsCallback_propagates
                    (State_credentials "alice" "secret" (-1)) None
                    "https://example/repo.git" "git"
                    GIT_CREDTYPE_USERPASS_PLAINTEXT)))).
    reflexivity.
Defined.

(** * Properties of [GitRepo::pull] *)

Lemma same_links_alter_keep (s : Store) (x : nat)
    (f : BaseFutureData → BaseFutureData) :
  (∀ d, delegateTo (f d) = delegateTo d) → same_links s (alter f x s).
Proof.
  intros Hf y. rewrite lookup_alter. case_decide as E; [|done].
  subst y. destruct (s !! x) as [d|]; [|done]. simpl. by rewrite Hf.
Qed.

Lemma same_links_receive_all (ch : list nat) (rs : list Report) (s : Store) :
  same_links s (fold_left (fun s r => receive_along ch r s) rs s).
Proof.
  revert s. induction rs as [|r rs IH]; intros s; simpl.
  - apply same_links_refl.
  - eapply same_links_trans; [apply same_links_receive_along|apply IH].
Qed.

Lemma chain_lookup (s : Store) (p x : nat) (ch : list nat) :
  chain s p ch → x ∈ ch → is_Some (s !! x).
Proof.
  intros Hch. induction Hch as [p d Hp Hd|p q d ch Hp Hd Hq IH]; intros Hx.
  - apply list_elem_of_singleton in Hx as ->. by exists d.
  - apply elem_of_cons in Hx as [->|Hx]; [by exists d|by apply IH].
Qed.

Lemma chain_insert_fresh (s : Store) (p q : nat) (ch : list nat)
    (d : BaseFutureData) :
  chain s p ch → s !! q = None → chain (<[q := d]> s) p ch.
Proof.
  intros Hch Hq. induction Hch as [p d' Hp Hd|p p' d' ch Hp Hd Hp' IH].
  - apply (chain_end _ _ d'); [|done].
    rewrite lookup_insert_ne; [done|]. intros ->. congruence.
  - apply (chain_step _ _ p' d'); [|done|done].
    rewrite lookup_insert_ne; [done|]. intros ->. congruence.
Qed.

Lemma update_alter (s : Store) (p : nat) (f : BaseFutureData → BaseFutureData) :
  is_Some (s !! p) → update p f s = Some (alter f p s).
Proof.
  intros [d Hp]. unfold update. rewrite Hp. f_equal. by apply insert_as_alter.
Qed.

Lemma send_all_app (fuel : nat) (p : nat) (rs1 rs2 : list Report) (s : Store) :
  send_all fuel p (rs1 ++ rs2) s
  = match send_all fuel p rs1 s with
    | Some s' => send_all fuel p rs2 s'
    | None => None
    end.
Proof.
  revert s. induction rs1 as [|r rs1 IH]; intros s; simpl; [done|].
  destruct (send fuel p r s); [apply IH|done].
Qed.

Lemma task_bind_reports {A B : Type} (fuel : nat) (p : nat)
    (rs1 rs2 : list Report) (m : Task A) (a : A) (k : A → Task B)
    (res : result B) (s : Store) :
  (∀ s0, m s0 = reports_then fuel p rs1 (inr a) s0) →
  (∀ s1, k a s1 = reports_then fuel p rs2 res s1) →
  task_bind m k s = reports_then fuel p (rs1 ++ rs2) res s.
Proof.
  intros Hm Hk. unfold task_bind. rewrite Hm. unfold reports_then.
  rewrite send_all_app.
  destruct (send_all fuel p rs1 s) as [s1|]; [|done].
  rewrite Hk. reflexivity.
Qed.

Lemma gitFetchNotifier_reports (fuel : nat) (st : N * N) (pl : GitPayload)
    (s : Store) :
  gitFetchNotifier fuel st pl s
  = reports_then fuel (pl_notifier pl)
      (match pl_state pl with
       | Fetching => [Progress st.1 st.2]
       | _ => [Status "Fetching..."; Progress st.1 st.2]
       end)
      (inr (set_payload_state pl Fetching)) s.
Proof.
  unfold gitFetchNotifier, reports_then, task_bind, task_ret,
    notifier_status, notifier_progress, task_of, set_payload_state.
  destruct pl as [n i []]; simpl.
  - destruct (reportStatus fuel n "Fetching..." s) as [s1|]; [simpl|done].
    by destruct (reportProgress fuel n st.1 st.2 s1).
  - by destruct (reportProgress fuel n st.1 st.2 s).
  - destruct (reportStatus fuel n "Fetching..." s) as [s1|]; [simpl|done].
    by destruct (reportProgress fuel n st.1 st.2 s1).
Qed.

Lemma gitCheckoutNotifier_reports (fuel : nat) (st : N * N) (pl : GitPayload)
    (s : Store) :
  gitCheckoutNotifier fuel st.1 st.2 pl s
  = reports_then fuel (pl_notifier pl)
      (match pl_state pl with
       | CheckingOut => [Progress st.1 st.2]
       | _ => [Status ("Checking out " +:+ identifier pl +:+ "...");
               Progress st.1 st.2]
       end)
      (inr (set_payload_state pl CheckingOut)) s.
Proof.
  unfold gitCheckoutNotifier, reports_then, task_bind, task_ret,
    notifier_status, notifier_progress, task_of, set_payload_state.
  destruct pl as [n i []]; cbn [pl_state pl_notifier identifier send_all send].
  - destruct (reportStatus fuel n _ s) as [s1|]; [simpl|done].
    by destruct (reportProgress fuel n st.1 st.2 s1).
  - destruct (reportStatus fuel n _ s) as [s1|]; [simpl|done].
    by destruct (reportProgress fuel n st.1 st.2 s1).
  - by destruct (reportProgress fuel n st.1 st.2 s).
Qed.

Lemma callbacks_fetching (fuel : nat) (stats : list (N * N)) (pl : GitPayload)
    (s : Store) :
  pl_state pl = Fetching →
  callbacks (gitFetchNotifier fuel) stats pl s
  = reports_then fuel (pl_notifier pl)
      (map (fun st => Progress st.1 st.2) stats) (inr pl) s.
Proof.
  intros Hst. revert s. induction stats as [|st stats IH]; intros s; [done|].
  cbn [callbacks map].
  apply (task_bind_reports fuel (pl_notifier pl) [Progress st.1 st.2] _ _ pl);
    [|exact IH].
  intros s0. rewrite gitFetchNotifier_reports, Hst.
  destruct pl as [n i st']. simpl in Hst. by subst st'.
Qed.

Lemma callbacks_fetch (fuel : nat) (stats : list (N * N)) (notifier : nat)
    (s : Store) :
  ∃ pl,
    callbacks (gitFetchNotifier fuel) stats (mkPayload notifier "" Initial) s
    = reports_then fuel notifier
        (match stats with
         | [] => []
         | _ => Status "Fetching..." :: map (fun st => Progress st.1 st.2) stats
         end) (inr pl) s.
Proof.
  destruct stats as [|st stats].
  - by eexists.
  - exists (mkPayload notifier "" Fetching). cbn [callbacks map].
    apply (task_bind_reports fuel notifier
             [Status "Fetching..."; Progress st.1 st.2] _ _
             (mkPayload notifier "" Fetching)).
    + intros s0. by rewrite gitFetchNotifier_reports.
    + intros s1. by rewrite callbacks_fetching.
Qed.

Lemma callbacks_checking_out (fuel : nat) (steps : list (N * N))
    (pl : GitPayload) (s : Store) :
  pl_state pl = CheckingOut →
  callbacks (fun step => gitCheckoutNotifier fuel step.1 step.2) steps pl s
  = reports_then fuel (pl_notifier pl)
      (map (fun st => Progress st.1 st.2) steps) (inr pl) s.
Proof.
  intros Hst. revert s. induction steps as [|st steps IH]; intros s; [done|].
  cbn [callbacks map].
  apply (task_bind_reports fuel (pl_notifier pl) [Progress st.1 st.2] _ _ pl);
    [|exact IH].
  intros s0. rewrite gitCheckoutNotifier_reports, Hst.
  destruct pl as [n i st']. simpl in Hst. by subst st'.
Qed.

Lemma callbacks_checkout (fuel : nat) (steps : list (N * N)) (notifier : nat)
    (id : string) (s : Store) :
  ∃ pl,
    callbacks (fun step => gitCheckoutNotifier fuel step.1 step.2) steps
      (mkPayload notifier id Initial) s
    = reports_then fuel notifier
        (match steps with
         | [] => []
         | _ => Status ("Checking out " +:+ id +:+ "...") ::
                map (fun st => Progress st.1 st.2) steps
         end) (inr pl) s.
Proof.
  destruct steps as [|st steps].
  - by eexists.
  - exists (mkPayload notifier id CheckingOut). cbn [callbacks map].
    apply (task_bind_reports fuel notifier
             [Status ("Checking out " +:+ id +:+ "..."); Progress st.1 st.2] _ _
             (mkPayload notifier id CheckingOut)).
    + intros s0. by rewrite gitCheckoutNotifier_reports.
    + intros s1. by rewrite callbacks_checking_out.
Qed.

(** The closure of [fetch] makes the reports of [fetch_reports] on its own
    promise and ends as [fetch_result] says. *)
Lemma fetch_reports_then (fuel : nat) (git : GitBehaviour) (q : nat) (s : Store) :
  fetch fuel git q s
  = reports_then fuel q (fetch_reports git) (fetch_result git) s.
Proof.
  unfold fetch, fetch_reports, fetch_result, checkAndThrow, reports_then.
  unfold task_bind at 1.
  destruct (git_remote_lookup git <? 0); [done|]. unfold task_ret at 1.
  unfold task_bind.
  destruct (callbacks_fetch fuel (transfer_progress git) q s) as [pl ->].
  unfold reports_then, task_throw, task_ret, throw, ok.
  destruct (transfer_progress git) as [|st stats];
    (destruct (send_all _ _ _ _) as [s'|]; [|done]);
    by destruct (git_remote_fetch git <? 0).
Qed.

Lemma checkout_reports_then (fuel : nat) (git : GitBehaviour) (id : string)
    (q : nat) (s : Store) :
  checkout fuel git id q s
  = reports_then fuel q (checkout_reports git id) (checkout_result git id) s.
Proof.
  unfold checkout, checkout_reports, checkout_result, checkAndThrow, reports_then.
  unfold task_bind at 1.
  destruct (git_revparse_single git id <? 0); [done|]. unfold task_ret at 1.
  unfold task_bind.
  destruct (callbacks_checkout fuel (checkout_progress git id) q id s) as [pl ->].
  unfold reports_then, task_throw, task_ret, throw, ok.
  destruct (checkout_progress git id) as [|st steps];
    (destruct (send_all _ _ _ _) as [s'|]; [|done]);
    by destruct (git_checkout_tree git id <? 0).
Qed.

(** Awaiting a subtask that makes the reports [rs] and ends with [res]:
    with fuel for the chain, the await returns [res], and the data of the
    awaiting promise has received the reports and then the failure, if
    any. *)
Lemma await_delegates (fuel : nat) (outer : nat) (body : nat → Task unit)
    (rs : list Report) (res : result unit) (s : Store)
    (d_out : BaseFutureData) (ch : list nat) :
  (∀ q s1, body q s1 = reports_then fuel q rs res s1) →
  s !! outer = Some d_out →
  chain s outer ch →
  (length ch < fuel)%nat →
  ∃ s', await fuel outer body s = Some (s', res) ∧
        s' !! outer = Some (fold_left receive (delegated rs res) d_out) ∧
        chain s' outer ch.
Proof.
  intros Hbody Hout Hch Hfuel. unfold await. cbv zeta.
  set (q := fresh (dom s)).
  set (d0 := mkData BaseFutureData.Running 0 0 "" None (Some outer) []).
  assert (Hq : s !! q = None) by (apply not_elem_of_dom, is_fresh).
  assert (Hne : q ≠ outer) by (intros E; rewrite E in Hq; congruence).
  set (s0 := <[q := d0]> s).
  assert (Hch0 : chain s0 outer ch) by (by apply chain_insert_fresh).
  assert (Hfull0 : chain s0 q (q :: ch)).
  { apply (chain_step _ _ outer d0); [apply lookup_insert_eq|done|done]. }
  pose proof (chain_NoDup _ _ _ Hfull0) as Hnd.
  assert (Hin : outer ∈ q :: ch).
  { destruct (chain_head _ _ _ Hch) as [ch' ->]. set_solver. }
  assert (Hq0 : is_Some (s0 !! q)) by (unfold s0; rewrite lookup_insert_eq; eauto).
  unfold reportStarted. rewrite (update_alter s0 q _ Hq0).
  set (s1 := alter (report sig_started) q s0).
  assert (Hl1 : same_links s0 s1) by (by apply same_links_alter_keep).
  assert (Hfull1 : chain s1 q (q :: ch)) by (by eapply chain_same_links).
  rewrite Hbody. unfold reports_then.
  rewrite (send_all_along fuel rs (q :: ch) s1 q Hfull1) by (simpl; lia).
  set (s2 := fold_left (fun s r => receive_along (q :: ch) r s) rs s1).
  assert (Hl2 : same_links s1 s2) by apply same_links_receive_all.
  assert (Hout2 : s2 !! outer = Some (fold_left receive rs d_out)).
  { unfold s2. rewrite lookup_receive_all by done.
    unfold s1. rewrite lookup_alter_ne by done.
    unfold s0. rewrite lookup_insert_ne by done. by rewrite Hout. }
  assert (Hq2 : is_Some (s2 !! q)).
  { unfold s2. rewrite lookup_receive_all by (done || set_solver).
    unfold s1. rewrite lookup_alter_eq. unfold s0. rewrite lookup_insert_eq.
    simpl. eauto. }
  destruct res as [e|[]].
  - change (reportException fuel q e s2) with (send fuel q (Failure e) s2).
    assert (Hfull2 : chain s2 q (q :: ch)) by (by eapply chain_same_links).
    rewrite (send_along fuel (Failure e) (q :: ch) s2 q Hfull2) by (simpl; lia).
    eexists. split; [done|]. split.
    + rewrite receive_along_in, Hout2 by done. simpl.
      unfold delegated. by rewrite fold_left_app.
    + eapply chain_same_links; [exact Hch0|].
      eapply same_links_trans; [exact Hl1|].
      eapply same_links_trans; [exact Hl2|]. apply same_links_receive_along.
  - unfold reportFinished. rewrite update_alter by done.
    eexists. split; [done|]. split.
    + rewrite lookup_alter_ne by done. rewrite Hout2.
      unfold delegated. by rewrite app_nil_r.
    + eapply chain_same_links; [exact Hch0|].
      eapply same_links_trans; [exact Hl1|].
      eapply same_links_trans; [exact Hl2|].
      by apply same_links_alter_keep.
Qed.

(** C6: [pull(id)] is the await of [fetch()] followed by the await of
    [checkout(id)], both on the notifier of the pull task; with fuel for
    the chain above the pull promise it returns [pull_spec_result], and the
    data of the pull promise has received, in order, the reports of the
    fetch and then those of the checkout: the one stream of
    [pull_spec_stream]. *)
Theorem pull_is_fetch_then_checkout (fuel : nat) (git : GitBehaviour)
    (id : string) (notifier : nat) (s : Store) (d : BaseFutureData)
    (ch : list nat) :
  s !! notifier = Some d →
  chain s notifier ch →
  (length ch < fuel)%nat →
  pull fuel git id notifier
  = task_bind (await fuel notifier (fetch fuel git))
              (fun _ => await fuel notifier (checkout fuel git id)) ∧
  ∃ s', pull fuel git id notifier s = Some (s', pull_spec_result git id) ∧
        s' !! notifier = Some (fold_left receive (pull_spec_stream git id) d) ∧
        emitted (fold_left receive (pull_spec_stream git id) d)
        = emitted d ++ map signal_of (pull_spec_stream git id).
Proof.
  intros Hd Hch Hfuel. split; [reflexivity|].
  unfold pull, task_bind, pull_spec_result, pull_spec_stream.
  destruct (await_delegates fuel notifier (fetch fuel git) (fetch_reports git)
              (fetch_result git) s d ch (fetch_reports_then fuel git) Hd Hch Hfuel)
    as (s1 & -> & Hd1 & Hch1).
  destruct (fetch_result git) as [e|[]] eqn:Hres.
  - exists s1. rewrite app_nil_r. split; [done|]. split; [done|].
    apply emitted_receive_all.
  - destruct (await_delegates fuel notifier (checkout fuel git id)
                (checkout_reports git id) (checkout_result git id) s1 _ ch
                (checkout_reports_then fuel git id) Hd1 Hch1 Hfuel)
      as (s2 & -> & Hd2 & _).
    exists s2. split; [done|]. rewrite fold_left_app. split; [done|].
    rewrite <- fold_left_app. apply emitted_receive_all.
Qed.

Lemma pull_is_fetch_then_checkout_witness :
  ∃ s', pull 2 sample_git "main" 0 {[ 0%nat := fresh_data None ]}
          = Some (s', inr tt) ∧
        emitted <$> (s' !! 0%nat)
        = Some [sig_status "Fetching..."; sig_progress 1 2; sig_progress 2 2;
                sig_status "Checking out main..."; sig_progress 5 5].
Proof.
  destruct (pull_is_fetch_then_checkout 2 sample_git "main" 0
              {[ 0%nat := fresh_data None ]} (fresh_data None) [0%nat])
    as (_ & s' & Hpull & Hd & _).
  - reflexivity.
  - apply (chain_end _ _ (fresh_data None)); reflexivity.
  - simpl. lia.
  - exists s'. split; [exact Hpull|]. rewrite Hd. reflexivity.
Defined.

(** * Further properties of the parser *)

Lemma checkPositionals_unfold (arguments : list PositionalArgument) :
  checkPositionals arguments =
  if 1 <? Z.of_nat (length arguments) then
    if existsb isMulti (removelast arguments) then
      cl_throw Build "Only the last positional argument may be multi"
    else if isMulti (List.last arguments (mkPositional "" false false)) &&
            existsb isOptional (removelast arguments) then
      cl_throw Build
        "May now have optional positional argument before multi positional argument"
    else if required_after_optional false arguments then
      cl_throw Build
        "May not have required positional arguments after optional ones"
    else ok tt
  else ok tt.
Proof. reflexivity. Qed.

Lemma lookup_removelast {A : Type} (l : list A) (i : nat) (a : A) :
  removelast l !! i = Some a ↔ l !! i = Some a ∧ (S i < length l)%nat.
Proof.
  revert i. induction l as [|x l IH]; intros i; simpl.
  - split; [done|]. by intros [? ?].
  - destruct l as [|y l].
    + simpl. split; [done|]. intros [_ H]. lia.
    + destruct i as [|i]; simpl.
      * split; [intros [= ->]; split; [done|lia]|by intros [[= ->] _]].
      * rewrite IH. simpl. split; intros [? ?]; split; (done || lia).
Qed.

Lemma existsb_false_lookup {A : Type} (p : A → bool) (l : list A) :
  existsb p l = false ↔ ∀ i a, l !! i = Some a → p a = false.
Proof.
  induction l as [|x l IH]; simpl.
  - split; [by intros _ i a|done].
  - rewrite orb_false_iff, IH. split.
    + intros [Hx Hl] [|i] a; simpl; [by intros [= <-]|apply Hl].
    + intros H. split; [by apply (H 0%nat)|]. intros i a. apply (H (S i)).
Qed.

Lemma required_after_optional_false (h : bool) (l : list PositionalArgument) :
  required_after_optional h l = false ↔
  (h = true → ∀ i a, l !! i = Some a → isOptional a = true) ∧
  (∀ i j a b, (i < j)%nat → l !! i = Some a → l !! j = Some b →
              isOptional a = true → isOptional b = true).
Proof.
  revert h. induction l as [|x l IH]; intros h; simpl.
  - split; [|done]. intros _. split; [by intros _ i a|by intros i j a b _].
  - destruct (h && negb (isOptional x)) eqn:E.
    + split; [done|]. intros [H _].
      apply andb_true_iff in E as [-> E]. apply negb_true_iff in E.
      rewrite (H eq_refl 0%nat x eq_refl) in E. done.
    + rewrite IH. split.
      * intros [H1 H2]. split.
        -- intros -> [|i] a; simpl.
           ++ intros [= <-]. by destruct (isOptional x).
           ++ by apply H1.
        -- intros [|i] [|j] a b Hij; simpl; try lia.
           ++ intros [= <-] Hb Hx. apply (H1 ltac:(by rewrite Hx, orb_true_r) j b Hb).
           ++ apply H2. lia.
      * intros [H1 H2]. split.
        -- intros Hh i a Ha. apply orb_true_iff in Hh as [->|Hx].
           ++ by apply (H1 eq_refl (S i) a).
           ++ by apply (H2 0%nat (S i) x a ltac:(lia)).
        -- intros i j a b Hij. apply (H2 (S i) (S j)). lia.
Qed.

(** X1: [Command::checkPositionals] accepts a list of positional arguments
    exactly when only its last argument is multi, no argument before a multi
    last argument is optional, and no required argument follows an optional
    one; what it throws otherwise is a [BuildException]. *)
Theorem checkPositionals_accepts_wellformed (arguments : list PositionalArgument) :
  (checkPositionals arguments = inr tt ↔ positionals_wellformed arguments) ∧
  (∀ e, checkPositionals arguments = inl e →
        ∃ message, e = CommandLineException Build message []).
Proof.
  rewrite checkPositionals_unfold. unfold positionals_wellformed, cl_throw, throw, ok.
  destruct (1 <? Z.of_nat (length arguments)) eqn:Hlen.
  - apply Z.ltb_lt in Hlen.
    destruct (existsb isMulti (removelast arguments)) eqn:Hmulti.
    { split; [|intros e [= <-]; eauto]. split; [done|]. intros (H1 & _ & _).
      assert (existsb isMulti (removelast arguments) = false) as Hf; [|congruence].
      apply existsb_false_lookup. intros i a Ha.
      apply lookup_removelast in Ha as [Ha Hi].
      destruct (isMulti a) eqn:E; [|done]. specialize (H1 i a Ha E). lia. }
    destruct (isMulti (List.last arguments _) && existsb isOptional (removelast arguments))
      eqn:Hopt.
    { split; [|intros e [= <-]; eauto]. split; [done|]. intros (_ & H2 & _).
      apply andb_true_iff in Hopt as [Hl Hex].
      assert (existsb isOptional (removelast arguments) = false) as Hf; [|congruence].
      apply existsb_false_lookup. intros i a Ha.
      apply lookup_removelast in Ha as [Ha Hi]. by eapply H2. }
    destruct (required_after_optional false arguments) eqn:Hreq.
    { split; [|intros e [= <-]; eauto]. split; [done|]. intros (_ & _ & H3).
      assert (required_after_optional false arguments = false) as Hf; [|congruence].
      apply required_after_optional_false. split; [done|exact H3]. }
    split; [|done]. split; [intros _|done].
    rewrite existsb_false_lookup in Hmulti.
    apply required_after_optional_false in Hreq as [_ Hreq].
    split; [|split; [|exact Hreq]].
    + intros i a Ha Hm. destruct (decide (S i < length arguments)%nat) as [Hi|Hi].
      * rewrite (Hmulti i a) in Hm; [done|]. by apply lookup_removelast.
      * apply lookup_lt_Some in Ha. lia.
    + intros i a l Ha Hi <- Hm. rewrite Hm in Hopt. simpl in Hopt.
      rewrite existsb_false_lookup in Hopt. apply (Hopt i). by apply lookup_removelast.
  - apply Z.ltb_ge in Hlen. split; [|done]. split; [intros _|done].
    destruct arguments as [|x [|y l]]; simpl in Hlen; try lia.
    + split; [|split]; by intros.
    + split; [|split].
      * intros [|i] a; simpl; [done|by destruct i].
      * intros i a l _ Hi. simpl in Hi. lia.
      * intros [|i] [|j] a b Hij; simpl; try lia; [by destruct j|by destruct i].
Qed.

Lemma checkPositionals_accepts_wellformed_witness :
  positionals_wellformed
    [mkPositional "name" false false; mkPositional "packages" true false].
Proof.
  apply (proj1 (checkPositionals_accepts_wellformed
                  [mkPositional "name" false false;
                   mkPositional "packages" true false])).
  reflexivity.
Defined.

Lemma span_all_chars (p : ascii → bool) (s rest : string) :
  all_chars p s = true →
  (match rest with EmptyString => true | String c _ => negb (p c) end) = true →
  span p (s +:+ rest) = (s, rest).
Proof.
  intros Hs Hrest. induction s as [|c s IH]; simpl in *.
  - destruct rest as [|c rest]; [done|]. simpl.
    apply negb_true_iff in Hrest. by rewrite Hrest.
  - apply andb_true_iff in Hs as [Hc Hs]. by rewrite Hc, IH.
Qed.

Lemma append_empty_r (s : string) : s +:+ "" = s.
Proof.
  induction s as [|c s IH]; [done|].
  change (String c (s +:+ "") = String c s). by rewrite IH.
Qed.


(** X2: [doubleOptionExpression] reads back what the long option syntax
    writes: for a non-empty name of letters, digits, dashes and dots and a
    value without line feed, the item [--name=value] gives the name, the
    value and the value flag, and the item [--name] gives the name, an
    empty value and no value flag. *)
Theorem doubleOptionExpression_reads_long_option (name value : string) :
  name ≠ "" →
  all_chars is_long_name_char name = true →
  all_chars (fun c => negb (Ascii.eqb c newline)) value = true →
  doubleOptionExpression ("--" +:+ (name +:+ ("=" +:+ value)))
    = Some (name, value, true) ∧
  doubleOptionExpression ("--" +:+ name) = Some (name, "", false).
Proof.
  intros Hne Hname Hvalue. unfold doubleOptionExpression.
  change ("--" +:+ (name +:+ ("=" +:+ value)))
    with (String "-" (String "-" (name +:+ String "=" value))).
  change ("--" +:+ name) with (String "-" (String "-" name)).
  cbv iota. split.
  - rewrite (span_all_chars is_long_name_char name (String "=" value)) by done.
    destruct name as [|c name]; [done|].
    unfold match_valuecont.
    rewrite <- (append_empty_r value) at 1.
    rewrite (span_all_chars _ value "") by done. reflexivity.
  - rewrite <- (append_empty_r name) at 1.
    rewrite (span_all_chars is_long_name_char name "") by done.
    by destruct name.
Qed.

Lemma doubleOptionExpression_reads_long_option_witness :
  doubleOptionExpression "--database=user" = Some ("database", "user", true) ∧
  doubleOptionExpression "--database" = Some ("database", "", false).
Proof.
  apply (doubleOptionExpression_reads_long_option "database" "user");
    [discriminate|reflexivity|reflexivity].
Defined.

Lemma register_option_lookup_in (table : gmap string Option) (o : Option)
    (name : string) :
  name ∈ names o → register_option table o !! name = Some o.
Proof.
  unfold register_option. generalize (names o) as ns. intros ns. revert table.
  induction ns as [|n ns IH]; intros table Hin; [by apply not_elem_of_nil in Hin|].
  simpl. destruct (decide (name ∈ ns)) as [Hns|Hns]; [by apply IH|].
  apply elem_of_cons in Hin as [->|Hin]; [|done].
  clear IH. revert table. induction ns as [|m ns IH]; intros table; simpl.
  - apply lookup_insert_eq.
  - rewrite insert_insert_ne by set_solver. apply IH. set_solver.
Qed.

Lemma register_option_lookup_notin (table : gmap string Option) (o : Option)
    (name : string) :
  name ∉ names o → register_option table o !! name = table !! name.
Proof.
  unfold register_option. generalize (names o) as ns. intros ns. revert table.
  induction ns as [|n ns IH]; intros table Hin; [done|]. simpl.
  rewrite IH by set_solver. apply lookup_insert_ne. set_solver.
Qed.

Lemma register_options_snoc (table : gmap string Option) (os : list Option)
    (o : Option) :
  register_options table (os ++ [o]) = register_option (register_options table os) o.
Proof. unfold register_options. by rewrite fold_left_app. Qed.

(** X3: entering a command makes every name of each of its options known.
    A name declared by several of its options denotes the one declared
    last, a name declared by none of them keeps the option it denoted
    before, and a name declared by the command shadows the same name of the
    commands entered before. *)
Theorem nextCommand_registers_options (st st' : ParseState) (command : Command) :
  nextCommand st command = inr st' →
  (∀ before opt after name,
     cmd_options command = before ++ opt :: after →
     name ∈ names opt →
     (∀ o, o ∈ after → name ∉ names o) →
     known_options st' !! name = Some opt) ∧
  (∀ name, (∀ o, o ∈ cmd_options command → name ∉ names o) →
           known_options st' !! name = known_options st !! name).
Proof.
  unfold nextCommand, bind. destruct (checkPositionals _); [discriminate|].
  intros [= <-]. simpl. split.
  - intros before opt after name -> Hin Hafter.
    induction after as [|o after IH] using rev_ind.
    + rewrite register_options_snoc. by apply register_option_lookup_in.
    + rewrite app_comm_cons, app_assoc, register_options_snoc.
      rewrite register_option_lookup_notin by (apply Hafter; set_solver).
      apply IH. intros o' Ho'. apply Hafter. set_solver.
  - intros name. generalize (known_options st) as table.
    induction (cmd_options command) as [|o os IH] using rev_ind;
      intros table Hnone; [done|].
    rewrite register_options_snoc.
    rewrite register_option_lookup_notin by (apply Hnone; set_solver).
    apply IH. intros o' Ho'. apply Hnone. set_solver.
Qed.

Lemma nextCommand_registers_options_witness :
  ∃ st', nextCommand initial_state cmd_sources = inr st' ∧
         known_options st' !! "d" = Some opt_database.
Proof.
  destruct (nextCommand initial_state cmd_sources) as [e|st'] eqn:E;
    [vm_compute in E; discriminate|].
  exists st'. split; [done|].
  apply (proj1 (nextCommand_registers_options _ _ _ E) [] opt_database [] "d").
  - reflexivity.
  - set_solver.
  - intros o Ho. by apply not_elem_of_nil in Ho.
Defined.






Lemma handleOption_throws_CommandLineException (st : ParseState)
    (name value : string) (hasValue : bool) (it : option (string * list string))
    (e : exn) :
  handleOption st name value hasValue it = inl e →
  ∃ kind message, e = CommandLineException kind message [].
Proof.
  unfold handleOption, cl_throw, throw, ok.
  destruct (known_options st !! name) as [opt|]; [|intros [= <-]; eauto].
  destruct (hasValue && negb (hasArgument opt)); [intros [= <-]; eauto|].
  destruct (negb hasValue && hasArgument opt && isArgumentRequired opt); [|done].
  destruct it as [[previous [|next rest]]|]; try (intros [= <-]; eauto).
  destruct (negb (QString.startsWith next "-")); [done|intros [= <-]; eauto].
Qed.






(** An induction principle for the parse loop: a property [P] of the state
    that each step keeps, and a property [Q] of every exception a step
    throws. *)
Lemma parse_items_outcome (P : ParseState → Prop) (Q : exn → Prop) :
  (∀ st c, P st →
     match nextCommand st c with inl e => Q e | inr st' => P st' end) →
  (∀ st name value hasValue it, P st →
     match handleOption st name value hasValue it with
     | inl e => Q e
     | inr (st', _) => P st'
     end) →
  (∀ st args, P st →
     match handleArguments st args with inl e => Q e | inr st' => P st' end) →
  (∀ message, Q (CommandLineException MalformedOption message [])) →
  ∀ items st, P st →
    match parse_items st items with inl e => Q e | inr st' => P st' end.
Proof.
  intros Hnext Hopt Hargs Hmal items.
  assert (Halias : ∀ path st, P st →
            match resolveAlias st path with inl e => Q e | inr st' => P st' end).
  { induction path as [|cmd path IH]; intros st HP; simpl; [done|]. unfold bind.
    pose proof (Hnext st (subcommand (currentCommand st) cmd) HP) as H.
    destruct (nextCommand st _); [done|]. by apply IH. }
  assert (Heach : ∀ s st, P st →
            match handle_each_char st s with inl e => Q e | inr st' => P st' end).
  { induction s as [|c s IH]; intros st HP; simpl; [done|].
    pose proof (Hopt st (String c "") "" false None HP) as H.
    destruct (handleOption st _ _ _ _) as [e|[st1 b]]; [done|]. by apply IH. }
  remember (length items) as n eqn:Hn. revert items Hn.
  induction (lt_wf n) as [n _ IH]. intros items Hn st HP.
  destruct items as [|item rest]; simpl; [done|].
  assert (Hrest : ∀ st1, P st1 →
            match parse_items st1 rest with inl e => Q e | inr st' => P st' end).
  { apply (IH (length rest)); [subst n; simpl; lia|done]. }
  assert (Hcont : ∀ r : result (ParseState * bool),
     match r with inl e => Q e | inr (st1, _) => P st1 end →
     match
       match r with
       | inl e => inl e
       | inr (st1, false) => parse_items st1 rest
       | inr (st1, true) =>
           match rest with [] => ok st1 | _ :: rest' => parse_items st1 rest' end
       end
     with inl e => Q e | inr st' => P st' end).
  { intros [e|[st1 [|]]] Hr; [done| |by apply Hrest].
    destruct rest as [|x rest']; [done|].
    apply (IH (length rest')); [subst n; simpl; lia|done|done]. }
  destruct (negb (haveStartedPositionals st) &&
            contains_key item (cmd_subcommands (currentCommand st))).
  { pose proof (Hnext st (subcommand (currentCommand st) item) HP) as H.
    destruct (nextCommand st _); [done|]. by apply Hrest. }
  destruct (negb (haveStartedPositionals st) &&
            contains_key item (cmd_commandAliases (currentCommand st))).
  { pose proof (Halias (default [] (assoc item (cmd_commandAliases (currentCommand st))))
                  st HP) as H.
    destruct (resolveAlias st _); [done|]. by apply Hrest. }
  destruct (String.eqb item "--"); [by apply Hargs|].
  destruct (QString.startsWith item "--").
  { destruct (doubleOptionExpression item) as [[[name value] hasValue]|];
      [|apply Hmal].
    apply Hcont. by apply Hopt. }
  destruct (QString.startsWith item "-").
  { destruct (singleOptionExpression item) as [[[names_ value] hasValue]|];
      [|apply Hmal].
    pose proof (Heach (remove_char (QString.size names_ - 1) names_) st HP) as H.
    destruct (handle_each_char st _) as [e|st1]; [done|].
    apply Hcont. by apply Hopt. }
  pose proof (Hargs st [item] HP) as H.
  destruct (handleArguments st [item]); [done|]. by apply Hrest.
Qed.

Lemma checkPositionals_throws_usage_error (arguments : list PositionalArgument)
    (e : exn) :
  checkPositionals arguments = inl e → is_usage_error e.
Proof.
  rewrite checkPositionals_unfold. unfold cl_throw, throw, ok, is_usage_error.
  repeat (match goal with |- context [if ?b then _ else _] => destruct b end);
    intros [= <-]; eauto.
Qed.

Lemma parse_throws_usage_error (parser : Command) (arguments : list string)
    (e : exn) :
  parse parser arguments = inl e → is_usage_error e.
Proof.
  assert (Hnext : ∀ st c, True →
            match nextCommand st c with
            | inl e => is_usage_error e | inr _ => True end).
  { intros st c _. unfold nextCommand, bind.
    destruct (checkPositionals _) as [e'|] eqn:E; [|done].
    by eapply checkPositionals_throws_usage_error. }
  unfold parse, bind.
  pose proof (Hnext initial_state parser I) as H0.
  destruct (nextCommand initial_state parser) as [e0|st0]; [by intros [= <-]|].
  pose proof (parse_items_outcome (fun _ => True) is_usage_error Hnext) as H.
  specialize (H ltac:(intros st name value hasValue it _;
    destruct (handleOption st name value hasValue it) as [e'|[st' b]] eqn:E;
      [by eapply handleOption_throws_CommandLineException|done])).
  specialize (H ltac:(intros st args _; unfold handleArguments, cl_throw, throw, ok;
    destruct (_ && _); [unfold is_usage_error; eauto|done])).
  specialize (H ltac:(intros message; unfold is_usage_error; eauto)
                (tail arguments) st0 I).
  destruct (parse_items st0 (tail arguments)); [by intros [= <-]|done].
Qed.

(** X6: [parse] throws nothing but command line exceptions, and [process]
    turns a failed parse into an exit code without letting it escape: -1
    when the parser itself is ill-built ([BuildException]), otherwise the
    help is printed and the process ends with status 0. *)
Theorem process_on_parse_failure (handlers : Handlers) (parser : Command)
    (arguments : list string) (e : exn) :
  parse parser arguments = inl e →
  ∃ kind message,
    e = CommandLineException kind message [] ∧
    process handlers parser arguments
    = match kind with Build => Returns (-1) | _ => Exits 0 end.
Proof.
  intros Hparse.
  destruct (parse_throws_usage_error _ _ _ Hparse) as (kind & message & ->).
  exists kind, message. split; [done|].
  unfold process, process_try. rewrite Hparse. by destruct kind.
Qed.

Lemma process_on_parse_failure_witness :
  process (ralph_handlers sample_world) ralph ["ralph"; "--nonsense"] = Exits 0.
Proof.
  destruct (process_on_parse_failure (ralph_handlers sample_world) ralph
              ["ralph"; "--nonsense"]
              (CommandLineException UnknownOption "Unknown option: --nonsense" []))
    as (kind & message & Hkind & Hprocess).
  - vm_compute; reflexivity.
  - injection Hkind as <- _. exact Hprocess.
Defined.

Lemma for_each_returns {A : Type} (f : A → outcome unit) (l : list A) :
  for_each f l = Returns tt → ∀ x, x ∈ l → f x = Returns tt.
Proof.
  induction l as [|y l IH]; simpl; intros H x Hx; [by apply not_elem_of_nil in Hx|].
  destruct (f y) as [[]| |] eqn:E; try discriminate.
  apply elem_of_cons in Hx as [->|Hx]; [done|by apply IH].
Qed.

Lemma seq_outcome_returns (a b : outcome unit) :
  seq_outcome a b = Returns tt → a = Returns tt ∧ b = Returns tt.
Proof. destruct a as [[]| |]; simpl; by intros. Qed.

(** X7: when [handle] returns, the invocation has been validated: every
    positional argument that is not optional has been given, and every
    option that was given or defaulted has a value among the allowed values
    of the option its key denotes, when that option restricts its values. *)
Theorem handle_returns_validated (handlers : Handlers) (parser : Command)
    (r : Result) :
  handle handlers parser r = Returns tt →
  (∀ arg, arg ∈ res_possiblePositionals r → isOptional arg = false →
          is_Some (res_arguments r !! arg_name arg)) ∧
  (∀ key value, res_options r !! key = Some value →
     allowedValues (possibleOption r key) = [] ∨
     value ∈ allowedValues (possibleOption r key)).
Proof.
  unfold handle. intros H.
  apply seq_outcome_returns in H as [_ H].
  apply seq_outcome_returns in H as [Hpos H].
  apply seq_outcome_returns in H as [Hopt _]. split.
  - intros arg Harg Hreq.
    pose proof (for_each_returns _ _ Hpos arg Harg) as Hf. simpl in Hf.
    rewrite Hreq in Hf. unfold Result_hasArgument in Hf.
    destruct (bool_decide_reflect (is_Some (res_arguments r !! arg_name arg)));
      [done|discriminate].
  - intros key value Hkey.
    assert (Hin : key ∈ (map_to_list (res_options r)).*1).
    { apply list_elem_of_fmap. exists (key, value). split; [done|].
      by apply elem_of_map_to_list. }
    pose proof (for_each_returns _ _ Hopt key Hin) as Hf. simpl in Hf.
    unfold Result_value in Hf. rewrite Hkey in Hf. simpl in Hf.
    destruct (bool_decide_reflect (allowedValues (possibleOption r key) = []));
      [by left|].
    destruct (bool_decide_reflect (value ∈ allowedValues (possibleOption r key)));
      [by right|discriminate].
Qed.

Lemma handle_returns_validated_witness :
  ∃ r, parse ralph ["ralph"; "sources"; "list"; "--database=user"] = inr r ∧
       ∀ key value, res_options r !! key = Some value →
         allowedValues (possibleOption r key) = [] ∨
         value ∈ allowedValues (possibleOption r key).
Proof.
  destruct (parse ralph ["ralph"; "sources"; "list"; "--database=user"])
    as [e|r] eqn:E; [vm_compute in E; discriminate|].
  exists r. split; [done|].
  apply (handle_returns_validated (ralph_handlers sample_world) ralph r).
  injection E as <-. vm_compute. reflexivity.
Defined.

Lemma fold_fill_default_origin (l : list Option) (opts : gmap string string)
    (key value : string) :
  fold_left fill_default l opts !! key = Some value →
  opts !! key = Some value ∨
  (opts !! key = None ∧
   ∃ opt, opt ∈ l ∧ first_name opt = key ∧ hasArgument opt = true ∧
          defaultValue opt = Some value).
Proof.
  revert opts. induction l as [|o l IH]; intros opts; simpl; [by left|].
  intros H. apply IH in H as [H|(Hnone & opt & Hin & Hk & Ha & Hd)].
  - unfold fill_default in H.
    destruct (opts !! first_name o) eqn:E; [by left|].
    destruct (defaultValue o) as [d|] eqn:Hd; [|by left].
    destruct (hasArgument o) eqn:Ha; [|by left].
    destruct (decide (first_name o = key)) as [<-|Hne].
    + rewrite lookup_insert_eq in H. injection H as <-. right.
      split; [done|]. exists o. set_solver.
    + rewrite lookup_insert_ne in H by done. by left.
  - right. split.
    + destruct (opts !! key) eqn:E; [|done].
      by rewrite (fill_default_keeps _ o _ _ E) in Hnone.
    + exists opt. set_solver.
Qed.

(** X8: the defaults loop of [parse] never overrides a value given on the
    command line, and a value it adds is the default of a known option that
    takes an argument, stored under that option's first name. *)
Theorem defaults_never_override (table : gmap string Option)
    (opts : gmap string string) (key value : string) :
  (opts !! key = Some value → fill_defaults table opts !! key = Some value) ∧
  (opts !! key = None → fill_defaults table opts !! key = Some value →
   ∃ name opt, table !! name = Some opt ∧ first_name opt = key ∧
               hasArgument opt = true ∧ defaultValue opt = Some value).
Proof.
  unfold fill_defaults. split.
  - apply fold_fill_default_keeps.
  - intros Hnone H.
    apply fold_fill_default_origin in H as [H|(_ & opt & Hin & Hk & Ha & Hd)];
      [congruence|].
    apply list_elem_of_fmap in Hin as ([name o] & -> & Hin).
    exists name, o. split; [by apply elem_of_map_to_list|done].
Qed.

Lemma defaults_never_override_witness :
  fill_defaults (register_options ∅ [opt_version; opt_database])
    {[ "database" := "user" ]} !! "database" = Some "user".
Proof.
  apply (proj1 (defaults_never_override
                  (register_options ∅ [opt_version; opt_database])
                  {[ "database" := "user" ]} "database" "user")).
  vm_compute; reflexivity.
Defined.

Lemma store_argument_multi (p : PositionalArgument) (l : list string) (arg : string) :
  store_argument [p] (match l with [] => ∅ | _ => {[ arg_name p := l ]} end) arg
  = {[ arg_name p := l ++ [arg] ]}.
Proof.
  unfold store_argument. destruct l as [|x l]; cbv beta iota.
  - rewrite map_size_empty. cbn [length nth]. case_bool_decide; [done|].
    apply insert_empty.
  - rewrite map_size_singleton. cbn [length List.last]. case_bool_decide; [|done].
    rewrite lookup_singleton_eq. cbn [default]. apply insert_singleton_eq.
Qed.

Lemma fold_store_argument_multi (p : PositionalArgument) (args l : list string) :
  fold_left (store_argument [p]) args
    (match l with [] => ∅ | _ => {[ arg_name p := l ]} end)
  = match l ++ args with [] => ∅ | _ => {[ arg_name p := l ++ args ]} end.
Proof.
  revert l. induction args as [|a args IH]; intros l; simpl.
  - by rewrite app_nil_r.
  - rewrite store_argument_multi.
    specialize (IH (l ++ [a])). rewrite <- app_assoc in IH. simpl in IH.
    destruct (l ++ [a]) as [|x l'] eqn:E; [by destruct l|].
    rewrite <- E in *. exact IH.
Qed.

(** X9: with one multi positional argument declared, [handleArguments]
    never throws and appends what it is given, in order, to the values
    already collected under the name of that argument. *)
Theorem handleArguments_collects_multi (st : ParseState) (p : PositionalArgument)
    (collected args : list string) :
  positionals st = [p] →
  isMulti p = true →
  ps_arguments st
    = match collected with [] => ∅ | _ => {[ arg_name p := collected ]} end →
  ∃ st', handleArguments st args = inr st' ∧
         ps_arguments st'
         = match collected ++ args with
           | [] => ∅
           | _ => {[ arg_name p := collected ++ args ]}
           end ∧
         ps_options st' = ps_options st ∧
         haveStartedPositionals st' = true.
Proof.
  intros Hp Hmulti Hargs. unfold handleArguments. rewrite Hp. simpl.
  rewrite Hmulti. rewrite andb_false_r.
  eexists. split; [done|]. simpl. split; [|done].
  rewrite Hargs. apply fold_store_argument_multi.
Qed.

Lemma handleArguments_collects_multi_witness :
  ∃ st, nextCommand initial_state cmd_install = inr st ∧
  ∃ st', handleArguments st ["foo"; "bar@1.0"] = inr st' ∧
         ps_arguments st' = {[ "packages" := ["foo"; "bar@1.0"] ]}.
Proof.
  destruct (nextCommand initial_state cmd_install) as [e|st] eqn:E;
    [vm_compute in E; discriminate|].
  exists st. split; [done|]. injection E as <-.
  match goal with
  | |- ∃ st', handleArguments ?s _ = _ ∧ _ =>
      destruct (handleArguments_collects_multi s
                  (mkPositional "packages" true false) [] ["foo"; "bar@1.0"]
                  eq_refl eq_refl eq_refl) as (st' & H & Hargs & _)
  end.
  exists st'. split; [exact H|exact Hargs].
Defined.

(** X10: the command chain of a successful parse begins with the name of
    the parser itself, so the walk at the end of [handle] starts by calling
    the parser's own callback. *)
Theorem parse_chain_starts_at_parser (handlers : Handlers) (parser : Command)
    (arguments : list string) (r : Result) :
  parse parser arguments = inr r →
  ∃ rest,
    res_commandChain r = cmd_name parser :: rest ∧
    call_chain handlers r
      (mkCommand "" [] [] [(cmd_name parser, parser)] [] None)
      (res_commandChain r)
    = seq_outcome (call handlers (cmd_callback parser) r)
                  (call_chain handlers r parser rest).
Proof.
  unfold parse, bind.
  destruct (nextCommand initial_state parser) as [e|st0] eqn:E0; [discriminate|].
  destruct (parse_items st0 (tail arguments)) as [e|st] eqn:E; [discriminate|].
  intros [= <-]. simpl.
  set (P := fun st : ParseState =>
              ∃ rest, ps_commandChain st = cmd_name parser :: rest).
  assert (HP : P st).
  { pose proof (parse_items_outcome P (fun _ => True)) as H.
    assert (Hnext : ∀ st c, P st →
              match nextCommand st c with inl _ => True | inr st' => P st' end).
    { intros s c [rest Hs]. unfold nextCommand, bind.
      destruct (checkPositionals _); [done|]. simpl. rewrite Hs. by eexists. }
    specialize (H Hnext).
    specialize (H ltac:(intros s name value hasValue it Hs;
      destruct (handleOption s name value hasValue it) as [e'|[s' b]] eqn:Eo; [done|];
      destruct (known_options s !! name) as [opt|] eqn:Hopt;
        [destruct (handleOption_stores_under_first_name _ _ _ _ _ _ _ _ Hopt Eo)
           as (stored & -> & _); exact Hs
        |unfold handleOption in Eo; by rewrite Hopt in Eo])).
    specialize (H ltac:(intros s args Hs; unfold handleArguments, cl_throw, throw, ok;
      destruct (_ && _); [done|exact Hs])).
    specialize (H ltac:(done) (tail arguments) st0).
    rewrite E in H. apply H.
    unfold nextCommand, bind in E0. destruct (checkPositionals _); [discriminate|].
    injection E0 as <-. simpl. by eexists. }
  destruct HP as [rest Hrest]. exists rest. split; [done|].
  rewrite Hrest. simpl. unfold subcommand. simpl. by rewrite String.eqb_refl.
Qed.

Lemma parse_chain_starts_at_parser_witness :
  ∃ r, parse ralph ["ralph"; "sources"; "list"] = inr r ∧
       res_commandChain r = ["ralph"; "sources"; "list"].
Proof.
  destruct (parse ralph ["ralph"; "sources"; "list"]) as [e|r] eqn:E;
    [vm_compute in E; discriminate|].
  exists r. split; [done|].
  destruct (parse_chain_starts_at_parser (ralph_handlers sample_world) ralph
              _ r E) as (rest & Hchain & _).
  injection E as <-. reflexivity.
Defined.

(** * Further properties of the client functions *)

Lemma indexOf_range (s : string) (c : ascii) : -1 ≤ QString.indexOf s c.
Proof.
  induction s as [|a s IH]; simpl; [lia|].
  destruct (Ascii.eqb a c); [lia|].
  destruct (Z.ltb_spec (QString.indexOf s c) 0); lia.
Qed.

Lemma indexOf_split (s : string) (c : ascii) :
  let i := QString.indexOf s c in
  i ≠ -1 →
  s = QString.take (Z.to_nat i) s +:+ String c (QString.drop (Z.to_nat (i + 1)) s) ∧
  QString.indexOf (QString.take (Z.to_nat i) s) c = -1.
Proof.
  induction s as [|a s IH]; simpl; [done|].
  destruct (Ascii.eqb_spec a c) as [->|Hne]; [done|].
  pose proof (indexOf_range s c) as Hr.
  destruct (Z.ltb_spec (QString.indexOf s c) 0) as [Hlt|Hge]; [done|].
  intros _. destruct (IH ltac:(lia)) as [Hs Hi].
  replace (Z.to_nat (QString.indexOf s c + 1)) with (S (Z.to_nat (QString.indexOf s c)))
    by lia.
  replace (Z.to_nat (QString.indexOf s c + 1 + 1))
    with (S (Z.to_nat (QString.indexOf s c + 1))) by lia.
  cbn [QString.take QString.drop QString.indexOf]. split.
  - change (String a s = String a (QString.take (Z.to_nat (QString.indexOf s c)) s +:+
              String c (QString.drop (Z.to_nat (QString.indexOf s c + 1)) s))).
    by rewrite <- Hs.
  - destruct (Ascii.eqb_spec a c); [done|]. by rewrite Hi.
Qed.

Lemma take_all (s : string) (n : nat) :
  (String.length s ≤ n)%nat → QString.take n s = s.
Proof.
  revert n. induction s as [|a s IH]; intros [|n] H; simpl in *; try done; try lia.
  rewrite IH; [done|lia].
Qed.

(** X11: [queryPackage] splits its query at the first [@].  A query without
    [@] names the package by the whole string and puts no requirement; a
    query with [@] is its name, the [@] and the text of its requirement, and
    the name holds no [@]. *)
Theorem query_splits_at_first_at (query : string) :
  (QString.indexOf query "@" = -1 →
   query_name query = query ∧ query_requirement query = inr []) ∧
  (QString.indexOf query "@" ≠ -1 →
   query = query_name query +:+
           String "@" (QString.mid query (QString.indexOf query "@" + 1) (-1)) ∧
   QString.indexOf (query_name query) "@" = -1 ∧
   query_requirement query
   = VersionRequirement_fromString
       (QString.mid query (QString.indexOf query "@" + 1) (-1))).
Proof.
  unfold query_name, query_requirement, QString.mid.
  pose proof (indexOf_range query "@") as Hr. split.
  - intros ->. simpl. done.
  - intros Hi. destruct (indexOf_split query "@" Hi) as [Hs Hn].
    destruct (Z.ltb_spec (QString.indexOf query "@") 0) as [|_]; [lia|].
    destruct (Z.eqb_spec (QString.indexOf query "@") (-1)) as [|_]; [lia|].
    simpl. done.
Qed.

Lemma query_splits_at_first_at_witness :
  query_name "foo" = "foo" ∧
  "foo@>=1.0@x" = query_name "foo@>=1.0@x" +:+ "@>=1.0@x".
Proof.
  split.
  - apply (proj1 (query_splits_at_first_at "foo")). reflexivity.
  - apply (proj2 (query_splits_at_first_at "foo@>=1.0@x")). discriminate.
Defined.

Lemma queryPackage_returns_least_witness :
  foo_1_0 ∈ findPackages sample_db "foo" [(OpGe, v1_0)] ∧
  version_lt (pkg_version foo_2_0) (pkg_version foo_1_0) = false.
Proof.
  destruct (queryPackage_returns_least sample_db "foo@>=1.0" [(OpGe, v1_0)]
              foo_1_0) as [Hin Hleast];
    [vm_compute; reflexivity|vm_compute; reflexivity|].
  split; [exact Hin|]. apply Hleast. vm_compute. set_solver.
Defined.

(** X13: [lastUpdatedColor] never shows a source that was updated later in a
    staler colour than one that was updated earlier; a source updated less
    than a day ago is green and one updated a week ago or more is red. *)
Theorem lastUpdatedColor_monotone (now : Z) (a b : PackageSource) :
  lastUpdated a ≤ lastUpdated b →
  color_rank (lastUpdatedColor now b) ≤ color_rank (lastUpdatedColor now a) ∧
  (now - lastUpdated b < 86400 → lastUpdatedColor now b = Green) ∧
  (604800 ≤ now - lastUpdated a → lastUpdatedColor now a = Red).
Proof.
  intros Hab. unfold lastUpdatedColor.
  change (3600 * 24 * 1) with 86400. change (3600 * 24 * 7) with 604800.
  destruct (Z.ltb_spec (now - lastUpdated a) 86400);
    destruct (Z.ltb_spec (now - lastUpdated a) 604800);
    destruct (Z.ltb_spec (now - lastUpdated b) 86400);
    destruct (Z.ltb_spec (now - lastUpdated b) 604800);
    simpl; repeat split; intros; (done || lia).
Qed.

Lemma lastUpdatedColor_monotone_witness :
  color_rank (lastUpdatedColor 700000 (mkSource "new" "git" 650000 []))
  ≤ color_rank (lastUpdatedColor 700000 (mkSource "old" "git" 0 [])).
Proof.
  apply (lastUpdatedColor_monotone 700000 (mkSource "old" "git" 0 [])
           (mkSource "new" "git" 650000 [])).
  simpl. lia.
Defined.

(** X14: [sources list] and the databases that cannot be opened.  When the
    requested database cannot be opened the function throws and has printed
    nothing.  For the scope [project], a user or system database that
    cannot be opened is skipped without an error, and the blank line before
    it is still printed. *)
Theorem listSources_unavailable_databases (w : World) (r : Result) :
  (database_of_type w (Result_value r "database") = inr None →
   listSources w r = ([], Some database_unavailable)) ∧
  (∀ project user system,
     Result_value r "database" = "project" →
     database_of_type w "project" = inr (Some project) →
     database_of_type w "user" = inr user →
     database_of_type w "system" = inr system →
     listSources w r =
     (listing (currentDateTimeUtc w) "project" project ++ [NewLine] ++
      optional_listing (currentDateTimeUtc w) "user" user ++ [NewLine] ++
      optional_listing (currentDateTimeUtc w) "system" system, None)).
Proof.
  unfold listSources, output. split.
  - intros ->. reflexivity.
  - intros project user system -> Hp Hu Hs. cbn -[listing].
    rewrite Hp. cbn -[listing]. rewrite Hu.
    destruct user as [user|]; cbn -[listing]; rewrite Hs;
      destruct system as [system|]; cbn -[listing];
      by rewrite <- ?app_assoc, ?app_nil_r.
Qed.

Lemma listSources_unavailable_databases_witness :
  listSources installed_world (sources_list "user")
  = ([], Some database_unavailable).
Proof.
  apply (proj1 (listSources_unavailable_databases installed_world
                  (sources_list "user"))).
  reflexivity.
Defined.

Lemma check_each_none (group : string) (w : World) (pkgs : list Package) :
  check_each group w pkgs = None ↔
  ∀ pkg, pkg ∈ pkgs → group_isInstalled group pkg w = true.
Proof.
  induction pkgs as [|p pkgs IH]; simpl.
  - split; [intros _ pkg H; by apply not_elem_of_nil in H|done].
  - destruct (group_isInstalled group p w) eqn:E; simpl.
    + rewrite IH. split.
      * intros H pkg Hpkg. apply elem_of_cons in Hpkg as [->|Hpkg]; [done|by apply H].
      * intros H pkg Hpkg. apply H. by right.
    + split; [done|]. intros H. rewrite (H p) in E; [done|by left].
Qed.

Lemma check_each_first (group : string) (w : World)
    (before : list Package) (pkg : Package) (after : list Package) :
  (∀ p, p ∈ before → group_isInstalled group p w = true) →
  group_isInstalled group pkg w = false →
  check_each group w (before ++ pkg :: after) = Some (not_installed pkg).
Proof.
  intros Hbefore Hpkg. induction before as [|p before IH]; simpl.
  - by rewrite Hpkg.
  - rewrite (Hbefore p) by (by left). simpl. apply IH.
    intros q Hq. apply Hbefore. by right.
Qed.

(** X15: [State::checkPackage] returns normally exactly when every query
    resolves and every resolved package is installed in the group; when all
    queries resolve, the exception it throws names the first resolved
    package, in the order of the queries, that is not installed. *)
Theorem checkPackage_reports_first_missing (w : World) (r : Result)
    (db : PackageDatabase) :
  project_database w = inr db →
  (checkPackage w r = None ↔
   ∃ pkgs,
     collection_map (queryPackage db) (Result_argumentMulti r "packages") = inr pkgs ∧
     ∀ pkg, pkg ∈ pkgs → group_isInstalled (Result_value r "group") pkg w = true) ∧
  (∀ before pkg after,
     collection_map (queryPackage db) (Result_argumentMulti r "packages")
       = inr (before ++ pkg :: after) →
     (∀ p, p ∈ before → group_isInstalled (Result_value r "group") p w = true) →
     group_isInstalled (Result_value r "group") pkg w = false →
     checkPackage w r = Some (Exception (pkg_name pkg +:+ " is not installed"))).
Proof.
  intros Hdb. unfold checkPackage. rewrite Hdb. split.
  - destruct (collection_map _ _) as [e|pkgs].
    + split; [done|]. by intros (pkgs & [=] & _).
    + rewrite check_each_none. split.
      * intros H. by exists pkgs.
      * by intros (pkgs' & [= <-] & H).
  - intros before pkg after -> Hbefore Hpkg. by apply check_each_first.
Qed.

Lemma checkPackage_reports_first_missing_witness :
  checkPackage installed_world check_foo_bar
  = Some (Exception "bar is not installed").
Proof.
  apply (proj2 (checkPackage_reports_first_missing installed_world check_foo_bar
                  sample_db eq_refl) [foo_1_0] bar_1_0 []).
  - vm_compute; reflexivity.
  - intros p Hp. apply list_elem_of_singleton in Hp as ->. vm_compute; reflexivity.
  - vm_compute; reflexivity.
Defined.

(** * Further properties of the promise reports *)

Lemma receive_notice_keeps_lifecycle (d : BaseFutureData) (r : Report) :
  is_notice r = true →
  state (receive d r) = state d ∧ exception (receive d r) = exception d ∧
  delegateTo (receive d r) = delegateTo d.
Proof. by destruct r. Qed.

Lemma send_step (fuel : nat) (p : nat) (r : Report) (s : Store) :
  send (S fuel) p r s =
  match s !! p with
  | None => None
  | Some d =>
      match delegateTo d with
      | Some q => send fuel q r (<[p := receive d r]> s)
      | None => Some (<[p := receive d r]> s)
      end
  end.
Proof. by destruct r. Qed.

Lemma send_zero (p : nat) (r : Report) (s : Store) : send 0 p r s = None.
Proof. by destruct r. Qed.

(** X16: progress reports and status strings never change the lifecycle of
    a promise: whatever the delegation links, after [reportProgress] or
    [reportStatus] returns, every promise of the store has the state, the
    exception and the delegation target it had before, and no promise has
    appeared or gone. *)
Theorem notices_keep_lifecycle (fuel : nat) (p : nat) (r : Report)
    (s s' : Store) :
  is_notice r = true →
  send fuel p r s = Some s' →
  ∀ q, state <$> (s' !! q) = state <$> (s !! q) ∧
       exception <$> (s' !! q) = exception <$> (s !! q) ∧
       delegateTo <$> (s' !! q) = delegateTo <$> (s !! q).
Proof.
  intros Hr. revert p s. induction fuel as [|fuel IH]; intros p s.
  - by rewrite send_zero.
  - rewrite send_step. destruct (s !! p) as [d|] eqn:Hp; [|done].
    destruct (receive_notice_keeps_lifecycle d r Hr) as (Hst & Hex & Hdel).
    assert (Hins : ∀ q,
      state <$> (<[p := receive d r]> s !! q) = state <$> (s !! q) ∧
      exception <$> (<[p := receive d r]> s !! q) = exception <$> (s !! q) ∧
      delegateTo <$> (<[p := receive d r]> s !! q) = delegateTo <$> (s !! q)).
    { intros q. destruct (decide (p = q)) as [<-|Hne].
      - rewrite lookup_insert_eq, Hp. simpl. by rewrite Hst, Hex, Hdel.
      - by rewrite lookup_insert_ne. }
    destruct (delegateTo d) as [target|].
    + intros H q. destruct (IH _ _ H q) as (H1 & H2 & H3).
      destruct (Hins q) as (H4 & H5 & H6).
      by rewrite H1, H2, H3.
    + intros [= <-]. apply Hins.
Qed.

Lemma notices_keep_lifecycle_witness :
  ∃ s', send 2 1 (Progress 3 7) pull_store = Some s' ∧
        state <$> (s' !! 0%nat) = Some BaseFutureData.Running ∧
        progressCurrent <$> (s' !! 0%nat) = Some 3%N.
Proof.
  destruct (send 2 1 (Progress 3 7) pull_store) as [s'|] eqn:E;
    [|vm_compute in E; discriminate].
  exists s'. split; [done|]. split.
  - rewrite (proj1 (notices_keep_lifecycle 2 1 (Progress 3 7) pull_store s'
                      eq_refl E 0%nat)).
    reflexivity.
  - injection E as <-. reflexivity.
Defined.

(** X17: a subordinate that finishes leaves the promise it delegates to as
    it was, while a subordinate that fails fails it too.  For [inner]
    delegating to [outer], [reportFinished] on [inner] changes the data of
    [inner] alone; [reportException] on [inner], with fuel for the chain,
    puts every promise of the chain, [outer] included, in the state
    [Exception] holding the same exception. *)
Theorem finish_stays_local_failure_spreads (s : Store) (inner outer : nat)
    (d_in : BaseFutureData) (ch : list nat) (fuel : nat) (e : exn) :
  s !! inner = Some d_in →
  delegateTo d_in = Some outer →
  chain s outer ch →
  (length ch < fuel)%nat →
  (∃ s1, reportFinished inner s = Some s1 ∧
         state <$> (s1 !! inner) = Some BaseFutureData.Finished ∧
         ∀ q, q ≠ inner → s1 !! q = s !! q) ∧
  (∃ s2, reportException fuel inner e s = Some s2 ∧
         ∀ q, q ∈ inner :: ch →
              state <$> (s2 !! q) = Some BaseFutureData.Exception ∧
              exception <$> (s2 !! q) = Some (Some e)).
Proof.
  intros Hin Hd Hch Hfuel. split.
  - unfold reportFinished, update. rewrite Hin. eexists. split; [done|]. split.
    + by rewrite lookup_insert_eq.
    + intros q Hq. by rewrite lookup_insert_ne.
  - assert (Hfull : chain s inner (inner :: ch))
      by (by apply (chain_step _ _ outer d_in)).
    exists (receive_along (inner :: ch) (Failure e) s). split.
    + apply (send_along fuel (Failure e) (inner :: ch) s inner Hfull). simpl. lia.
    + intros q Hq.
      rewrite receive_along_in by (done || by eapply chain_NoDup).
      destruct (chain_lookup _ _ _ _ Hfull Hq) as [d ->]. done.
Qed.

Lemma finish_stays_local_failure_spreads_witness :
  ∃ s1, reportFinished 1 pull_store = Some s1 ∧
        s1 !! 0%nat = pull_store !! 0%nat.
Proof.
  destruct (finish_stays_local_failure_spreads pull_store 1 0
              (fresh_data (Some 0%nat)) [0%nat] 2 (Exception "failed"))
    as [(s1 & H1 & _ & Hrest) _].
  - reflexivity.
  - reflexivity.
  - apply (chain_end _ _ (fresh_data None)); reflexivity.
  - simpl. lia.
  - exists s1. split; [exact H1|]. apply Hrest. lia.
Defined.

Lemma endless_insert (s : Store) (cycle : nat → Prop) (p : nat)
    (d : BaseFutureData) (r : Report) :
  endless s cycle → s !! p = Some d → endless (<[p := receive d r]> s) cycle.
Proof.
  intros Hend Hp x Hx. destruct (Hend x Hx) as (dx & y & Hdx & Hy & Hcy).
  destruct (decide (p = x)) as [->|Hne].
  - exists (receive d r), y. rewrite lookup_insert_eq. split; [done|].
    split; [|done]. rewrite Hp in Hdx. injection Hdx as <-. by destruct r.
  - exists dx, y. by rewrite lookup_insert_ne.
Qed.

(** X18: a delegation cycle makes the delegating reports recurse without
    end.  When a promise belongs to a set of promises each of which
    delegates to another of the set (a promise that delegates to itself is
    the least such set), [reportProgress], [reportStatus] and
    [reportException] on it return for no amount of fuel. *)
Theorem delegation_cycle_never_returns (s : Store) (cycle : nat → Prop)
    (p : nat) (r : Report) :
  endless s cycle → cycle p → ∀ fuel, send fuel p r s = None.
Proof.
  intros Hend Hp fuel. revert s p Hend Hp.
  induction fuel as [|fuel IH]; intros s p Hend Hp; [apply send_zero|].
  rewrite send_step. destruct (Hend p Hp) as (d & y & Hd & Hdel & Hy).
  rewrite Hd, Hdel. apply IH; [|done]. by apply endless_insert.
Qed.

Lemma delegation_cycle_never_returns_witness :
  reportProgress 5 0 1 2 {[ 0%nat := fresh_data (Some 0%nat) ]} = None.
Proof.
  change (send 5 0 (Progress 1 2) {[ 0%nat := fresh_data (Some 0%nat) ]} = None).
  apply (delegation_cycle_never_returns {[ 0%nat := fresh_data (Some 0%nat) ]}
           (fun x => x = 0%nat) 0%nat (Progress 1 2)).
  - intros x ->. exists (fresh_data (Some 0%nat)), 0%nat.
    split; [reflexivity|]. split; reflexivity.
  - reflexivity.
Defined.

(** * Further properties of the git driver *)

Lemma land_bit_cases (allowedTypes bit : Z) (t u : GitCredentialQuery.Type_) :
  u ∈ (if Z.land allowedTypes bit =? 0 then [] else [t]) ↔
  u = t ∧ Z.land allowedTypes bit ≠ 0.
Proof.
  destruct (Z.eqb_spec (Z.land allowedTypes bit) 0) as [E|E].
  - rewrite elem_of_nil. tauto.
  - rewrite list_elem_of_singleton. tauto.
Qed.

Lemma credentials_query_allows (url usernameFromUrl : string) (allowed : Z)
    (t : GitCredentialQuery.Type_) :
  t ∈ allowedTypes (credentials_query url usernameFromUrl allowed) ↔
  Z.land allowed (credtype_bit t) ≠ 0.
Proof.
  unfold credentials_query. cbn [allowedTypes].
  rewrite !elem_of_app, !land_bit_cases.
  destruct t; cbn [credtype_bit]; split;
    try (intros H; repeat destruct H as [H|H]; destruct H as [H1 H2];
         (discriminate H1 || exact H2));
    intros H; auto 10.
Qed.

(** X19: the query [credentialsCallback] hands to the broker allows exactly
    the credential types whose libgit2 bit is set in the challenge, and
    carries the url and the user name of the challenge; only the six bits
    of these types matter, every other bit of the challenge is dropped. *)
Theorem credentials_query_mirrors_challenge (url_ usernameFromUrl_ : string)
    (allowed : Z) :
  (∀ t, t ∈ allowedTypes (credentials_query url_ usernameFromUrl_ allowed) ↔
        Z.land allowed (credtype_bit t) ≠ 0) ∧
  url (credentials_query url_ usernameFromUrl_ allowed) = url_ ∧
  usernameFromUrl (credentials_query url_ usernameFromUrl_ allowed)
    = usernameFromUrl_ ∧
  credentials_query url_ usernameFromUrl_ allowed
    = credentials_query url_ usernameFromUrl_ (Z.land allowed 63).
Proof.
  split; [intros t; apply credentials_query_allows|].
  split; [done|]. split; [done|].
  unfold credentials_query. f_equal.
  assert (Hbit : ∀ k, 0 ≤ k < 6 →
            Z.land (Z.land allowed 63) (2 ^ k) = Z.land allowed (2 ^ k)).
  { intros k Hk. apply Z.bits_inj'. intros n Hn.
    rewrite !Z.land_spec. change 63 with (Z.ones 6).
    rewrite !Z.pow2_bits_eqb, Z.testbit_ones_nonneg by lia.
    destruct (Z.eqb_spec k n) as [<-|]; [|by rewrite !andb_false_r].
    destruct (Z.ltb_spec k 6); [|lia]. by rewrite !andb_true_r. }
  unfold GIT_CREDTYPE_DEFAULT, GIT_CREDTYPE_USERNAME,
    GIT_CREDTYPE_USERPASS_PLAINTEXT, GIT_CREDTYPE_SSH_CUSTOM,
    GIT_CREDTYPE_SSH_INTERACTIVE, GIT_CREDTYPE_SSH_KEY.
  change 8 with (2 ^ 3). change 32 with (2 ^ 5). change 1 with (2 ^ 0).
  change 4 with (2 ^ 2). change 16 with (2 ^ 4). change 2 with (2 ^ 1).
  by rewrite !Hbit by lia.
Qed.

Lemma credentials_query_mirrors_challenge_witness :
  GitCredentialQuery.SSHKey
    ∈ allowedTypes (credentials_query "https://example/repo.git" "git" 66).
Proof.
  apply (proj1 (credentials_query_mirrors_challenge
                  "https://example/repo.git" "git" 66)
           GitCredentialQuery.SSHKey).
  vm_compute. discriminate.
Defined.

(** X20: the broker that [State::State] registers, seen through
    [credentialsCallback].  A challenge that does not allow a user name
    with a plain text password is answered with 1 and leaves [*out] alone;
    one that allows it is answered with 0 and a credential holding the
    password and the user name typed, or the one of the url when nothing
    was typed, or with [GIT_EUSER] when libgit2 could not build the
    credential. *)
Theorem State_credentials_through_callback (typed password : string) (rc : Z)
    (out : option git_cred) (url_ usernameFromUrl_ : string) (allowed : Z) :
  let answer :=
    credentialsCallback (State_credentials typed password rc) out
      url_ usernameFromUrl_ allowed in
  (Z.land allowed GIT_CREDTYPE_USERPASS_PLAINTEXT = 0 → answer = (1, out)) ∧
  (Z.land allowed GIT_CREDTYPE_USERPASS_PLAINTEXT ≠ 0 → rc < 0 →
   answer = (GIT_EUSER, out)) ∧
  (Z.land allowed GIT_CREDTYPE_USERPASS_PLAINTEXT ≠ 0 → 0 ≤ rc →
   answer = (0, Some (cred_userpass_plaintext
                        (if String.eqb typed "" then usernameFromUrl_ else typed)
                        password))).
Proof.
  intros answer. subst answer.
  unfold credentialsCallback, State_credentials, createForUsernamePassword.
  pose proof (credentials_query_allows url_ usernameFromUrl_ allowed
                GitCredentialQuery.UsernamePassword) as Hq.
  cbn [credtype_bit] in Hq.
  split; [|split].
  - intros H0. rewrite bool_decide_eq_false_2 by (rewrite Hq; tauto). done.
  - intros Hne Hrc. rewrite bool_decide_eq_true_2 by (by apply Hq).
    destruct (Z.ltb_spec rc 0); [done|lia].
  - intros Hne Hrc. rewrite bool_decide_eq_true_2 by (by apply Hq).
    destruct (Z.ltb_spec rc 0); [lia|done].
Qed.

Lemma State_credentials_through_callback_witness :
  credentialsCallback (State_credentials "" "secret" 0) None
    "https://example/repo.git" "git" 33
  = (0, Some (cred_userpass_plaintext "git" "secret")).
Proof.
  apply (proj2 (proj2 (State_credentials_through_callback "" "secret" 0 None
                         "https://example/repo.git" "git" 33)));
    [vm_compute; discriminate|lia].
Defined.

Lemma reports_then_on_chain {A : Type} (fuel : nat) (q : nat) (rs : list Report)
    (res : result A) (s : Store) (d : BaseFutureData) (ch : list nat) :
  s !! q = Some d → chain s q ch → (length ch ≤ fuel)%nat →
  ∃ s', reports_then fuel q rs res s = Some (s', res) ∧
        s' !! q = Some (fold_left receive rs d).
Proof.
  intros Hd Hch Hfuel. unfold reports_then.
  rewrite (send_all_along fuel rs ch s q Hch Hfuel).
  eexists. split; [done|].
  destruct (chain_head _ _ _ Hch) as [ch' ->].
  rewrite lookup_receive_all, Hd; [done|by eapply chain_NoDup|by left].
Qed.

(** X21: how [GitRepo::fetch] ends.  When the lookup of the remote fails,
    the task throws a [GitException] with that code and has reported
    nothing.  Otherwise its watchers receive ["Fetching..."] once, before
    the first progress, and then every transfer progress in order, also
    when the fetch fails in the end; the task fails only for a negative
    return code of [git_remote_fetch]. *)
Theorem fetch_reports_and_result (fuel : nat) (git : GitBehaviour) (q : nat)
    (s : Store) (d : BaseFutureData) (ch : list nat) :
  s !! q = Some d → chain s q ch → (length ch ≤ fuel)%nat →
  (git_remote_lookup git < 0 →
   fetch fuel git q s
   = Some (s, inl (GitException (giterr_last git) (git_remote_lookup git)))) ∧
  (0 ≤ git_remote_lookup git →
   ∃ s', fetch fuel git q s
         = Some (s', if git_remote_fetch git <? 0
                     then inl (GitException (giterr_last git) (git_remote_fetch git))
                     else inr tt) ∧
         emitted <$> (s' !! q)
         = Some (emitted d ++
                 match transfer_progress git with
                 | [] => []
                 | stats =>
                     sig_status "Fetching..." ::
                     map (fun st => sig_progress st.1 st.2) stats
                 end)).
Proof.
  intros Hd Hch Hfuel. rewrite fetch_reports_then.
  unfold fetch_reports, fetch_result, throw, ok. split.
  - intros Hlookup. destruct (Z.ltb_spec (git_remote_lookup git) 0); [|lia].
    reflexivity.
  - intros Hlookup. destruct (Z.ltb_spec (git_remote_lookup git) 0); [lia|].
    match goal with
    | |- ∃ s', reports_then _ _ ?rs ?res _ = _ ∧ _ =>
        destruct (reports_then_on_chain fuel q rs res s d ch Hd Hch Hfuel)
          as (s' & Hrun & Hq)
    end.
    exists s'. split; [exact Hrun|]. rewrite Hq. simpl. f_equal.
    rewrite emitted_receive_all. f_equal.
    destruct (transfer_progress git) as [|st stats]; [done|]. simpl.
    f_equal. f_equal. by rewrite map_map.
Qed.

Lemma fetch_reports_and_result_witness :
  fetch 1 (mkGit (-3) [(1, 2)]%N 0 (fun _ => 0) (fun _ => []) (fun _ => 0) "no remote")
    0 {[ 0%nat := fresh_data None ]}
  = Some ({[ 0%nat := fresh_data None ]}, inl (GitException "no remote" (-3))).
Proof.
  assert (Hd : ({[ 0%nat := fresh_data None ]} : Store) !! 0%nat
               = Some (fresh_data None)) by apply lookup_singleton_eq.
  apply (proj1 (fetch_reports_and_result 1
                  (mkGit (-3) [(1, 2)]%N 0 (fun _ => 0) (fun _ => [])
                         (fun _ => 0) "no remote")
                  0 {[ 0%nat := fresh_data None ]} (fresh_data None) [0%nat]
                  Hd (chain_end _ _ (fresh_data None) Hd eq_refl) (le_n 1))).
  simpl. lia.
Defined.





Lemma for_each_exits {A : Type} (f : A → outcome unit) (l : list A) :
  (∀ x e, x ∈ l → f x ≠ Throws e) →
  (∃ x code, x ∈ l ∧ f x = Exits code) →
  ∃ code, for_each f l = Exits code.
Proof.
  induction l as [|y l IH]; intros Hthrow (x & code & Hx & Hfx);
    [by apply not_elem_of_nil in Hx|].
  simpl. destruct (f y) as [[]|e|c] eqn:E.
  - apply IH.
    + intros z e Hz. apply Hthrow. by right.
    + apply elem_of_cons in Hx as [->|Hx]; [congruence|]. by exists x, code.
  - destruct (Hthrow y e); [by left|done].
  - by exists c.
Qed.

(** X23: early exit options are served before the invocation is validated.
    When the callback of an early exit option that was given ends the
    process, and no other early exit callback throws, [handle] ends the
    process too, whether or not required positional arguments are missing
    or option values are allowed. *)
Theorem handle_serves_early_exit_first (handlers : Handlers) (parser : Command)
    (r : Result) (key value : string) (code : Z) :
  res_options r !! key = Some value →
  early_exit_call handlers r key = Exits code →
  (∀ key' value' e, res_options r !! key' = Some value' →
                    early_exit_call handlers r key' ≠ Throws e) →
  ∃ code', handle handlers parser r = Exits code'.
Proof.
  intros Hkey Hexit Hthrow. unfold handle.
  destruct (for_each_exits (early_exit_call handlers r)
              (map_to_list (res_options r)).*1) as [code' Hfor].
  - intros x e Hx. apply list_elem_of_fmap in Hx as ([k v] & -> & Hx).
    apply elem_of_map_to_list in Hx. by eapply Hthrow.
  - exists key, code. split; [|done].
    apply list_elem_of_fmap. exists (key, value). split; [done|].
    by apply elem_of_map_to_list.
  - exists code'. unfold early_exit_call in Hfor. by rewrite Hfor.
Qed.

Lemma handle_serves_early_exit_first_witness :
  ∃ code, handle (ralph_handlers sample_world) ralph install_version = Exits code.
Proof.
  apply (handle_serves_early_exit_first (ralph_handlers sample_world) ralph
           install_version "version" "" 0).
  - vm_compute; reflexivity.
  - vm_compute; reflexivity.
  - intros key' value' e Hkey'.
    destruct (decide (key' = "version")) as [->|Hne].
    + vm_compute. discriminate.
    + unfold install_version in Hkey'. simpl in Hkey'.
      rewrite lookup_singleton_ne in Hkey' by done. discriminate.
Defined.
